(** * The GFS master (gfs/master/master.go): coordinator RPCs and background cycle

    A shallow embedding of [master.go].  The master owns three managers
    ([nm], [cm], [csm]) that are defined in other files of package
    [master]; together with the outside world (clock, network, storage
    nodes) they form the interface the master is written against, the
    class [Environment] below.  Every function of [master.go] is a
    computation in a small monad that threads the master's state, may stop
    with a Go panic or a [log.Fatal] exit, and records the calls the master
    makes, in order. *)

From stdpp Require Import base gmap strings list.
From Stdlib Require Import ZArith Lia.

Local Open Scope Z_scope.

(** ** Data of package [gfs] used by the master *)

Definition ServerAddress := string.
Definition Path := string.
Definition ChunkHandle := Z.   (* int64 *)
Definition ChunkIndex := Z.    (* int *)
Definition Time := Z.          (* an instant of [time.Time], totally ordered *)

(** A Go [error]: [None] is [nil], [Some msg] an error value. *)
Definition Err := string.
Definition error := option Err.

(** [fmt.Errorf("File %v does not exist", path)]. *)
Definition errFileNotExist (p : Path) : Err := ("File " ++ p ++ " does not exist")%string.

(** An element of the slice [csm.Heartbeat] returns; the master reads only
    its [Handle] field. *)
Record ChunkReport := { Handle : ChunkHandle }.

(** Requests the master sends to storage nodes through [util.Call]. *)
Inductive ChunkServerCall :=
| RPCCreateChunk (handle : ChunkHandle)                    (* gfs.CreateChunkArg{handle} *)
| RPCSendCopy (handle : ChunkHandle) (to : ServerAddress). (* gfs.SendCopyArg{handle, to} *)

(** RPC arguments and replies. *)
Record HeartbeatArg := { hb_Address : ServerAddress; hb_LeaseExtensions : list ChunkHandle }.
Record HeartbeatReply : Set := { }.
Record ExtendLeaseArg := { el_Handle : ChunkHandle; el_Address : ServerAddress }.
Record ExtendLeaseReply := { el_Expire : Time }.
Record GetChunkHandleArg := { gch_Path : Path; gch_Index : ChunkIndex }.
Record GetChunkHandleReply := { gch_Handle : ChunkHandle }.
Record GetFileInfoArg := { gfi_Path : Path }.
Record GetFileInfoReply := { gfi_IsDir : bool; gfi_Length : Z; gfi_Chunks : Z }.
Record Lease := { Primary : ServerAddress; Expire : Time; Secondaries : list ServerAddress }.
Record GetPrimaryAndSecondariesReply :=
  { gps_Primary : ServerAddress; gps_Expire : Time; gps_Secondaries : list ServerAddress }.

(** ** The namespace tree

    [master.go] reads and writes the fields of [*nsTree] nodes directly
    ([cwd.children[name]], [file.chunks++]), so nodes live in a heap and are
    named by references; a reference absent from the heap plays the role of
    a nil pointer. *)

Definition NodeRef := positive.

Record nsTree := {
  isDir : bool;
  children : gmap string NodeRef;
  file_length : Z;    (* the [length] field, int64 *)
  chunks : Z     (* int64 *)
}.

Record namespaceManager := { root : NodeRef; nodes : gmap NodeRef nsTree }.

(** [x++] on an int64: two's-complement wrap-around. *)
Definition int64_incr (x : Z) : Z := (x + 1 + 2 ^ 63) mod 2 ^ 64 - 2 ^ 63.

Definition incr_chunks (t : nsTree) : nsTree :=
  {| isDir := isDir t; children := children t; file_length := file_length t;
     chunks := int64_incr (chunks t) |}.

(** ** What the master records of a run *)

Inductive Level := Info | Warning | Fatal.

Inductive LogMsg :=
| LogListenError (e : Err)                 (* "listen error:" *)
| LogAcceptError (e : Err)                 (* "accept error:" *)
| LogBackgroundError (e : Err)             (* "Background error " *)
| LogRunning (a : ServerAddress)           (* "Master is running now. addr = %v" *)
| LogRemoveServer (v : ServerAddress)      (* "remove server %v" *)
| LogBackground (hs : list ChunkHandle)    (* "Master Background " *)
| LogReReplication (e : error)             (* log.Info(err) after reReplication *)
| LogAllocate (h : ChunkHandle) (from to : ServerAddress)
                                           (* "allocate new chunk %v from %v to %v" *)
| LogIgnored (e : Err)                     (* "[ignored] An ignored error in RPCGetChunkHandle " *)
| LogUnimplemented (rpc : string).         (* "call to unimplemented ..." *)

Inductive Event :=
| EvLog (l : Level) (m : LogMsg)
| EvListen (a : ServerAddress)
| EvAccept
| EvServeConn
(* chunkServerManager *)
| EvHeartbeat (a : ServerAddress)
| EvDetectDeadServers
| EvRemoveServer (a : ServerAddress)
| EvChooseServers (n : Z)
| EvChooseReReplication (h : ChunkHandle)
| EvAddChunk (addrs : list ServerAddress) (h : ChunkHandle)
(* chunkManager *)
| EvRemoveChunks (hs : list ChunkHandle) (a : ServerAddress)
| EvGetNeedlist
| EvExpireCheck (h : ChunkHandle) (expire now : Time) (* ck.expire.Before(time.Now()) *)
| EvChunkLock (h : ChunkHandle)
| EvChunkUnlock (h : ChunkHandle)
| EvRegisterReplica (h : ChunkHandle) (a : ServerAddress)
| EvExtendLease (h : ChunkHandle) (a : ServerAddress)
| EvGetLeaseHolder (h : ChunkHandle)
| EvGetReplicas (h : ChunkHandle)
| EvCreateChunk (p : Path) (addrs : list ServerAddress)
| EvGetChunk (p : Path) (i : ChunkIndex)
(* namespaceManager *)
| EvCreate (p : Path)
| EvMkdir (p : Path)
| EvLockParents (p : Path)
| EvUnlockParents (ps : list string)
| EvFileLock (f : NodeRef)
| EvFileUnlock (f : NodeRef)
| EvFileRLock (f : NodeRef)
| EvFileRUnlock (f : NodeRef)
(* storage nodes *)
| EvCall (to : ServerAddress) (c : ChunkServerCall).

(** How a Go function call ends: it returns, it panics (nil dereference,
    index out of range), or the process exits ([log.Fatal]). *)
Inductive Outcome (A : Type) :=
| Done (a : A)
| Panic
| Exit.
Arguments Done {A} a.
Arguments Panic {A}.
Arguments Exit {A}.

(** ** The interface the master is written against

    A method of a manager reads and writes that manager's state and may
    use the outside world (the clock, the storage nodes); it cannot reach
    the other manager.  [lockParents] only takes locks: it reads the tree
    and returns the path elements and the parent directory. *)

Definition Op (S W R : Type) : Type := S -> W -> R * S * W.

Class Environment (CM CSM World : Type) := {
  (* package gfs *)
  DefaultNumReplicas : Z;
  (* constructors *)
  newNamespaceManager : namespaceManager;
  newChunkManager : CM;
  newChunkServerManager : CSM;
  (* namespaceManager *)
  nm_lockParents : Path -> namespaceManager -> list string * NodeRef * error;
  nm_Create : Path -> namespaceManager -> error * namespaceManager;
  nm_Mkdir : Path -> namespaceManager -> error * namespaceManager;
  (* chunkServerManager *)
  csm_Heartbeat : ServerAddress -> Op CSM World (list ChunkReport);
  csm_DetectDeadServers : Op CSM World (list ServerAddress);
  csm_RemoveServer : ServerAddress -> Op CSM World (list ChunkHandle * error);
  csm_ChooseServers : Z -> Op CSM World (list ServerAddress * error);
  csm_ChooseReReplication : ChunkHandle -> Op CSM World (ServerAddress * ServerAddress * error);
  csm_AddChunk : list ServerAddress -> ChunkHandle -> Op CSM World error;
  (* chunkManager *)
  cm_chunk_expire : CM -> ChunkHandle -> option Time;   (* cm.chunk[h].expire *)
  cm_RemoveChunks : list ChunkHandle -> ServerAddress -> Op CM World error;
  cm_GetNeedlist : Op CM World (list ChunkHandle);
  cm_RegisterReplica : ChunkHandle -> ServerAddress -> Op CM World error;
  cm_ExtendLease : ChunkHandle -> ServerAddress -> Op CM World error;
  cm_GetLeaseHolder : ChunkHandle -> Op CM World (Lease * error);
  cm_GetReplicas : ChunkHandle -> Op CM World (list ServerAddress * error);
  cm_CreateChunk : Path -> list ServerAddress -> Op CM World (ChunkHandle * list ServerAddress * error);
  cm_GetChunk : Path -> ChunkIndex -> Op CM World (ChunkHandle * error);
  (* the world: time.Now, util.Call, net.Listen, Listener.Accept *)
  time_Now : World -> Time * World;
  util_Call : ServerAddress -> ChunkServerCall -> World -> error * World;
  net_Listen : ServerAddress -> World -> error * World;
  net_Accept : World -> error * World
}.

Section Master.
Context {CM CSM World : Type} {E : Environment CM CSM World}.

(** The [Master] struct, together with the world it runs in. *)
Record State := {
  m_address : ServerAddress;
  m_serverRoot : string;
  m_shutdown : bool;            (* the [shutdown] channel has been closed *)
  m_nm : namespaceManager;
  m_cm : CM;
  m_csm : CSM;
  world : World
}.

Definition set_nm (n : namespaceManager) (s : State) : State :=
  {| m_address := m_address s; m_serverRoot := m_serverRoot s; m_shutdown := m_shutdown s;
     m_nm := n; m_cm := m_cm s; m_csm := m_csm s; world := world s |}.
Definition set_cm (c : CM) (w : World) (s : State) : State :=
  {| m_address := m_address s; m_serverRoot := m_serverRoot s; m_shutdown := m_shutdown s;
     m_nm := m_nm s; m_cm := c; m_csm := m_csm s; world := w |}.
Definition set_csm (c : CSM) (w : World) (s : State) : State :=
  {| m_address := m_address s; m_serverRoot := m_serverRoot s; m_shutdown := m_shutdown s;
     m_nm := m_nm s; m_cm := m_cm s; m_csm := c; world := w |}.
Definition set_world (w : World) (s : State) : State :=
  {| m_address := m_address s; m_serverRoot := m_serverRoot s; m_shutdown := m_shutdown s;
     m_nm := m_nm s; m_cm := m_cm s; m_csm := m_csm s; world := w |}.
Definition set_shutdown (b : bool) (s : State) : State :=
  {| m_address := m_address s; m_serverRoot := m_serverRoot s; m_shutdown := b;
     m_nm := m_nm s; m_cm := m_cm s; m_csm := m_csm s; world := world s |}.

(** ** The monad *)

Definition M (A : Type) : Type := State -> Outcome A * State * list Event.

Definition ret {A} (a : A) : M A := fun s => (Done a, s, []).

Definition bind {A B} (c : M A) (k : A -> M B) : M B := fun s =>
  match c s with
  | (Done a, s1, t1) => let '(r, s2, t2) := k a s1 in (r, s2, t1 ++ t2)
  | (Panic, s1, t1) => (Panic, s1, t1)
  | (Exit, s1, t1) => (Exit, s1, t1)
  end.

Definition emit (e : Event) : M unit := fun s => (Done tt, s, [e]).
Definition panic {A} : M A := fun s => (Panic, s, []).

(** [log.Info], [log.Warning]: a line of the log. *)
Definition log (l : Level) (m : LogMsg) : M unit := emit (EvLog l m).
(** [log.Fatal]: logs, then exits the process; deferred calls do not run. *)
Definition log_Fatal {A} (m : LogMsg) : M A := fun s => (Exit, s, [EvLog Fatal m]).

(** [defer d] at the head of [body]: [d] runs when [body] returns or
    panics, not when the process exits. *)
Definition defer {A} (d : M unit) (body : M A) : M A := fun s =>
  match body s with
  | (Exit, s1, t1) => (Exit, s1, t1)
  | (r, s1, t1) =>
      match d s1 with
      | (Done _, s2, t2) => (r, s2, t1 ++ t2)
      | (Panic, s2, t2) => (Panic, s2, t1 ++ t2)
      | (Exit, s2, t2) => (Exit, s2, t1 ++ t2)
      end
  end.

End Master.

Declare Scope go_scope.
Delimit Scope go_scope with go.
Notation "x <- c1 ;; c2" := (bind c1 (fun x => c2))
  (at level 20, c1 at level 99, c2 at level 200, only parsing) : go_scope.
Notation "' pat <- c1 ;; c2" := (bind c1 (fun x => match x with pat => c2 end))
  (at level 20, pat pattern, c1 at level 99, c2 at level 200, only parsing) : go_scope.
Notation "c1 ;; c2" := (bind c1 (fun _ => c2))
  (at level 100, c2 at level 200, right associativity, only parsing) : go_scope.

(** ** The functions of [master.go] *)

Section Coordinator.
Context {CM CSM World : Type} {E : Environment CM CSM World}.
Local Open Scope go_scope.
Local Abbreviation M := (@M CM CSM World).

(** A method call on [m.csm], on [m.cm], on [m.nm], and a call into the
    world; each is recorded before the next one starts. *)
Definition call_csm {R} (ev : Event) (op : Op CSM World R) : M R := fun s =>
  let '(r, c, w) := op (m_csm s) (world s) in (Done r, set_csm c w s, [ev]).

Definition call_cm {R} (ev : Event) (op : Op CM World R) : M R := fun s =>
  let '(r, c, w) := op (m_cm s) (world s) in (Done r, set_cm c w s, [ev]).

Definition call_nm {R} (ev : Event) (op : namespaceManager -> R * namespaceManager) : M R :=
  fun s => let '(r, n) := op (m_nm s) in (Done r, set_nm n s, [ev]).

Definition call_world {R} (evs : list Event) (op : World -> R * World) : M R := fun s =>
  let '(r, w) := op (world s) in (Done r, set_world w s, evs).

(** [for _, x := range l { body }] with no [return] or [break] in the body. *)
Fixpoint forEach {A} (l : list A) (body : A -> M unit) : M unit :=
  match l with
  | [] => ret tt
  | x :: rest => body x ;; forEach rest body
  end.


(** [reReplication]: lines 133-156. *)
Definition reReplication (handle : ChunkHandle) : M error :=
  '(from, to, err) <- call_csm (EvChooseReReplication handle) (csm_ChooseReReplication handle) ;;
  match err with
  | Some e => ret (Some e)
  | None =>
      log Warning (LogAllocate handle from to) ;;
      err <- call_world [EvCall to (RPCCreateChunk handle)] (util_Call to (RPCCreateChunk handle)) ;;
      match err with
      | Some e => ret (Some e)
      | None =>
          err <- call_world [EvCall from (RPCSendCopy handle to)]
                            (util_Call from (RPCSendCopy handle to)) ;;
          match err with
          | Some e => ret (Some e)
          | None =>
              call_cm (EvRegisterReplica handle to) (cm_RegisterReplica handle to) ;;
              call_csm (EvAddChunk [to] handle) (csm_AddChunk [to] handle) ;;
              ret None
          end
      end
  end.

(** [ck := m.cm.chunk[h]] followed by [ck.expire.Before(time.Now())]: a
    handle with no record gives a nil [ck], whose field read panics. *)
Definition expired (h : ChunkHandle) : M bool := fun s =>
  match cm_chunk_expire (m_cm s) h with
  | None => (Panic, s, [])
  | Some expire =>
      let '(now, w) := time_Now (world s) in
      (Done (expire <? now), set_world w s, [EvExpireCheck h expire now])
  end.

(** The first loop of [backgroundActivity], lines 105-112: the [return err]
    in its body leaves [backgroundActivity], so the loop yields that error. *)
Fixpoint backgroundActivity_sweep (addrs : list ServerAddress) : M error :=
  match addrs with
  | [] => ret None
  | v :: rest =>
      log Warning (LogRemoveServer v) ;;
      '(handles, err) <- call_csm (EvRemoveServer v) (csm_RemoveServer v) ;;
      match err with
      | Some e => ret (Some e)
      | None =>
          call_cm (EvRemoveChunks handles v) (cm_RemoveChunks handles v) ;;
          backgroundActivity_sweep rest
      end
  end.

(** The second loop of [backgroundActivity], lines 118-127. *)
Fixpoint backgroundActivity_repair (handles : list ChunkHandle) : M unit :=
  match handles with
  | [] => ret tt
  | h :: rest =>
      b <- expired h ;;
      (if b : bool then
         emit (EvChunkLock h) ;;
         err <- reReplication h ;;
         log Info (LogReReplication err) ;;
         emit (EvChunkUnlock h)
       else ret tt) ;;
      backgroundActivity_repair rest
  end.

(** [backgroundActivity]: lines 102-130.  A nil slice is the empty list, so
    the test [handles != nil] guards a loop that would not run anyway. *)
Definition backgroundActivity : M error :=
  addrs <- call_csm EvDetectDeadServers csm_DetectDeadServers ;;
  err <- backgroundActivity_sweep addrs ;;
  match err with
  | Some e => ret (Some e)
  | None =>
      handles <- call_cm EvGetNeedlist cm_GetNeedlist ;;
      log Info (LogBackground handles) ;;
      backgroundActivity_repair handles ;;
      ret None
  end.


(** One turn of the accept loop, lines 48-64: [false] when the loop is left
    through [break loop]. *)
Definition acceptLoop_iter : M bool := fun s =>
  if m_shutdown s then (Done false, s, [])
  else
    (err <- call_world [EvAccept] net_Accept ;;
     match err with
     | None => emit EvServeConn ;; ret true
     | Some e => log_Fatal (LogAcceptError e)
     end) s.

(** One tick of the background task, lines 70-77. *)
Definition backgroundTask_iter : M unit :=
  err <- backgroundActivity ;;
  match err with
  | Some e => log_Fatal (LogBackgroundError e)
  | None => ret tt
  end.

(** [Shutdown], lines 95-98: [close(m.shutdown)]; closing a channel that is
    already closed panics. *)
Definition Shutdown : M unit := fun s =>
  if m_shutdown s then (Panic, s, []) else (Done tt, set_shutdown true s, []).

(** [loadMeta], [storeMeta]: lines 159-165. *)
Definition loadMeta : M error := ret None.
Definition storeMeta : M error := ret None.

(** [RPCHeartbeat]: lines 168-181.  [rep != nil] guards a loop over [rep]. *)
Definition RPCHeartbeat (args : HeartbeatArg) (reply : HeartbeatReply) : M (HeartbeatReply * error) :=
  rep <- call_csm (EvHeartbeat (hb_Address args)) (csm_Heartbeat (hb_Address args)) ;;
  forEach rep (fun v =>
    call_cm (EvRegisterReplica (Handle v) (hb_Address args))
            (cm_RegisterReplica (Handle v) (hb_Address args)) ;;
    call_csm (EvAddChunk [hb_Address args] (Handle v))
             (csm_AddChunk [hb_Address args] (Handle v)) ;;
    ret tt) ;;
  forEach (hb_LeaseExtensions args) (fun handle =>
    call_cm (EvExtendLease handle (hb_Address args)) (cm_ExtendLease handle (hb_Address args)) ;;
    ret tt) ;;
  ret (reply, None).

(** [RPCGetPrimaryAndSecondaries]: lines 185-194. *)
Definition RPCGetPrimaryAndSecondaries (handle : ChunkHandle) (reply : GetPrimaryAndSecondariesReply)
  : M (GetPrimaryAndSecondariesReply * error) :=
  '(lease, err) <- call_cm (EvGetLeaseHolder handle) (cm_GetLeaseHolder handle) ;;
  match err with
  | Some e => ret (reply, Some e)
  | None => ret ({| gps_Primary := Primary lease; gps_Expire := Expire lease;
                    gps_Secondaries := Secondaries lease |}, None)
  end.

(** [RPCExtendLease]: lines 197-202; its body is [return nil]. *)
Definition RPCExtendLease (args : ExtendLeaseArg) (reply : ExtendLeaseReply)
  : M (ExtendLeaseReply * error) :=
  ret (reply, None).

(** [RPCGetReplicas]: lines 205-216; the reply is its [Locations]. *)
Definition RPCGetReplicas (handle : ChunkHandle) (reply : list ServerAddress)
  : M (list ServerAddress * error) :=
  '(servers, err) <- call_cm (EvGetReplicas handle) (cm_GetReplicas handle) ;;
  match err with
  | Some e => ret (reply, Some e)
  | None => ret (reply ++ servers, None)
  end.

(** [RPCCreateFile], [RPCMkdir]: lines 219-222 and 231-234. *)
Definition RPCCreateFile (path : Path) : M error := call_nm (EvCreate path) (nm_Create path).
Definition RPCMkdir (path : Path) : M error := call_nm (EvMkdir path) (nm_Mkdir path).

(** [RPCDelete], [RPCList]: lines 225-228 and 237-240. *)
Definition RPCDelete (path : Path) : M error := log_Fatal (LogUnimplemented "RPCDelete").
Definition RPCList (path : Path) : M error := log_Fatal (LogUnimplemented "RPCList").

(** [m.nm.lockParents(path)]. *)
Definition lockParents (p : Path) : M (list string * NodeRef * error) := fun s =>
  (Done (nm_lockParents p (m_nm s)), s, [EvLockParents p]).

(** Reading through a [*nsTree], and writing a node back. *)
Definition deref (r : NodeRef) : M nsTree := fun s =>
  match nodes (m_nm s) !! r with
  | Some t => (Done t, s, [])
  | None => (Panic, s, [])
  end.

Definition store (r : NodeRef) (t : nsTree) : M unit := fun s =>
  (Done tt, set_nm {| root := root (m_nm s); nodes := <[r := t]> (nodes (m_nm s)) |} s, []).

(** [ps[len(ps)-1]]: index out of range on an empty slice. *)
Definition last_elem (ps : list string) : M string :=
  match last ps with
  | Some name => ret name
  | None => panic
  end.

(** [RPCGetFileInfo]: lines 243-261. *)
Definition RPCGetFileInfo (args : GetFileInfoArg) (reply : GetFileInfoReply)
  : M (GetFileInfoReply * error) :=
  '(ps, cwd, err) <- lockParents (gfi_Path args) ;;
  defer (emit (EvUnlockParents ps))
    match err with
    | Some e => ret (reply, Some e)
    | None =>
        dir <- deref cwd ;;
        name <- last_elem ps ;;
        match children dir !! name with
        | None => ret (reply, Some (errFileNotExist (gfi_Path args)))
        | Some f =>
            deref f ;;
            emit (EvFileRLock f) ;;
            defer (emit (EvFileRUnlock f))
              (file <- deref f ;;
               ret ({| gfi_IsDir := isDir file; gfi_Length := file_length file;
                       gfi_Chunks := chunks file |}, None))
        end
    end.

(** The branch of [RPCGetChunkHandle] taken when the index is the file's
    chunk count, lines 281-295.  The [err] of [addrs, err := ...] is a new
    variable of the block; after the block the function returns the outer
    [err], which is nil there. *)
Definition RPCGetChunkHandle_append (path : Path) (f : NodeRef) (file : nsTree) (reply : GetChunkHandleReply)
  : M (GetChunkHandleReply * error) :=
  store f (incr_chunks file) ;;
  '(addrs, err) <- call_csm (EvChooseServers DefaultNumReplicas)
                            (csm_ChooseServers DefaultNumReplicas) ;;
  match err with
  | Some e => ret (reply, Some e)
  | None =>
      '(handle, addrs, err) <- call_cm (EvCreateChunk path addrs) (cm_CreateChunk path addrs) ;;
      match err with
      | Some e =>
          log Warning (LogIgnored e) ;;
          ret ({| gch_Handle := handle |}, None)
      | None =>
          call_csm (EvAddChunk addrs handle) (csm_AddChunk addrs handle) ;;
          ret ({| gch_Handle := handle |}, None)
      end
  end.

(** [RPCGetChunkHandle]: lines 265-301.  [int(args.Index) == int(file.chunks)]
    compares two integers that fit the platform's 64-bit [int], so the
    conversions change nothing.  [file.Lock()] on a nil [file] panics before
    any lock is taken. *)
Definition RPCGetChunkHandle (args : GetChunkHandleArg) (reply : GetChunkHandleReply)
  : M (GetChunkHandleReply * error) :=
  '(ps, cwd, err) <- lockParents (gch_Path args) ;;
  defer (emit (EvUnlockParents ps))
    match err with
    | Some e => ret (reply, Some e)
    | None =>
        dir <- deref cwd ;;
        name <- last_elem ps ;;
        match children dir !! name with
        | None => ret (reply, Some (errFileNotExist (gch_Path args)))
        | Some f =>
            deref f ;;
            emit (EvFileLock f) ;;
            defer (emit (EvFileUnlock f))
              (file <- deref f ;;
               if gch_Index args =? chunks file then
                 RPCGetChunkHandle_append (gch_Path args) f file reply
               else
                 '(handle, err) <- call_cm (EvGetChunk (gch_Path args) (gch_Index args))
                                           (cm_GetChunk (gch_Path args) (gch_Index args)) ;;
                 ret ({| gch_Handle := handle |}, err))
        end
    end.

End Coordinator.

(** ** A replayed environment

    To run the master on concrete inputs the interface is instantiated by a
    small stand-in.  What a manager or the world answers is part of the
    input: the answers are listed in the order the master will ask for them
    and each call that returns something takes the next one.  The calls that
    only update a registry update a table here, so that their effect can be
    read back. *)

Module Replay.

Inductive Answer :=
| ANow (t : Time)                                        (* time.Now *)
| AErr (e : error)                                       (* util.Call, net.Listen, Accept *)
| AReports (l : list ChunkReport)                        (* Heartbeat *)
| AAddrs (l : list ServerAddress) (e : error)            (* DetectDeadServers, ChooseServers, GetReplicas *)
| AHandles (l : list ChunkHandle) (e : error)            (* RemoveServer, GetNeedlist *)
| AFromTo (from to : ServerAddress) (e : error)          (* ChooseReReplication *)
| ACreated (h : ChunkHandle) (l : list ServerAddress) (e : error)  (* CreateChunk *)
| ALeased (l : Lease) (e : error).                       (* GetLeaseHolder *)

Definition World := list Answer.

(** The next answer, read by [decode]; a missing or ill-shaped answer is
    the zero value [d]. *)
Definition next {R} (decode : Answer -> option R) (d : R) (w : World) : R * World :=
  match w with
  | [] => (d, [])
  | a :: rest => (default d (decode a), rest)
  end.

Record CM := {
  file : list (Path * list ChunkHandle);       (* the handles of each file, by index *)
  expire : list (ChunkHandle * Time);          (* [chunk[h].expire] *)
  location : list (ChunkHandle * ServerAddress);
  extensions : list (ChunkHandle * ServerAddress)
}.

Record CSM := {
  servers : list ServerAddress;
  held : list (ServerAddress * ChunkHandle)
}.

Definition assoc {K V} `{EqDecision K} (k : K) (l : list (K * V)) : option V :=
  snd <$> List.find (fun kv => bool_decide (kv.1 = k)) l.

Definition noErr : error := None.

(** Error kinds named by the specification. *)
Definition NotFound : Err := "NotFound"%string.
Definition NoAvailableServers : Err := "NoAvailableServers"%string.
Definition InvalidRequest : Err := "InvalidRequest"%string.
Definition DownstreamFailure : Err := "DownstreamFailure"%string.

(** Modelled from the spec: [chunkManager.GetChunk], which is not among the
    sources.  "GetChunk(path, index) -> handle: pure lookup; fails with
    NotFound if no chunk exists at that index for that file." *)
Definition GetChunk (p : Path) (i : ChunkIndex) : Op CM World (ChunkHandle * error) :=
  fun c w =>
    match assoc p (file c) with
    | Some hs =>
        if (0 <=? i) && (i <? Z.of_nat (List.length hs))
        then (List.nth (Z.to_nat i) hs 0, noErr, c, w)
        else (0, Some NotFound, c, w)
    | None => (0, Some NotFound, c, w)
    end.

Definition RegisterReplica (h : ChunkHandle) (a : ServerAddress) : Op CM World error :=
  fun c w =>
    (noErr,
     {| file := file c; expire := expire c;
        location := if bool_decide ((h, a) ∈ location c) then location c else location c ++ [(h, a)];
        extensions := extensions c |}, w).

Definition RemoveChunks (hs : list ChunkHandle) (a : ServerAddress) : Op CM World error :=
  fun c w =>
    (noErr,
     {| file := file c; expire := expire c;
        location := List.filter (fun ha => negb (bool_decide (ha.1 ∈ hs) && bool_decide (ha.2 = a)))
                                (location c);
        extensions := extensions c |}, w).

Definition ExtendLease (h : ChunkHandle) (a : ServerAddress) : Op CM World error :=
  fun c w =>
    (noErr,
     {| file := file c; expire := expire c; location := location c;
        extensions := extensions c ++ [(h, a)] |}, w).

Definition AddChunk (addrs : list ServerAddress) (h : ChunkHandle) : Op CSM World error :=
  fun c w =>
    (noErr, {| servers := servers c; held := held c ++ List.map (fun a => (a, h)) addrs |}, w).

Definition Heartbeat (a : ServerAddress) : Op CSM World (list ChunkReport) :=
  fun c w =>
    let '(r, w') := next (fun x => match x with AReports l => Some l | _ => None end) [] w in
    (r, {| servers := if bool_decide (a ∈ servers c) then servers c else servers c ++ [a];
           held := held c |}, w').

Definition RemoveServer (a : ServerAddress) : Op CSM World (list ChunkHandle * error) :=
  fun c w =>
    let '(r, w') := next (fun x => match x with AHandles l e => Some (l, e) | _ => None end)
                         ([], noErr) w in
    match r.2 with
    | Some _ => (r, c, w')
    | None =>
        (r, {| servers := List.filter (fun b => negb (bool_decide (b = a))) (servers c);
               held := List.filter (fun bh => negb (bool_decide (bh.1 = a))) (held c) |}, w')
    end.

(** Modelled from the spec: [chunkManager.CreateChunk], which is not among
    the sources.  "CreateChunk(path, candidateServers) -> (handle,
    assignedServers): allocates a new handle, initializes an empty replica
    set, and returns the handle together with the servers chosen for
    initial placement."  The handle allocated, the servers that took the
    chunk and the error of the storage nodes are the next answer.  The
    handle is allocated before the storage nodes are contacted: it becomes
    the next chunk of the file, with a chunk record and no replica, also
    when a storage node then fails; [RPCGetChunkHandle] hands that handle
    to its caller in either case. *)
Definition CreateChunk (p : Path) (addrs : list ServerAddress)
  : Op CM World (ChunkHandle * list ServerAddress * error) :=
  fun c w =>
    let '(r, w') := next (fun x => match x with ACreated h l e => Some (h, l, e) | _ => None end)
                         (0, [], noErr) w in
    (r,
     {| file := match assoc p (file c) with
                | Some hs =>
                    List.map (fun ph => if bool_decide (ph.1 = p) then (p, hs ++ [r.1.1]) else ph)
                             (file c)
                | None => file c ++ [(p, [r.1.1])]
                end;
        expire := expire c ++ [(r.1.1, 0)];
        location := location c; extensions := extensions c |}, w').

(** A call that only asks: the registry is left as it is. *)
Definition ask {S R} (decode : Answer -> option R) (d : R) : Op S World R :=
  fun c w => let '(r, w') := next decode d w in (r, c, w').

Definition emptyLease : Lease := {| Primary := ""; Expire := 0; Secondaries := [] |}.

(** A flat namespace: every path names a child of the root directory. *)
Definition lockParents (p : Path) (n : namespaceManager) : list string * NodeRef * error :=
  ([p], root n, noErr).

Definition addChild (dir : bool) (p : Path) (n : namespaceManager) : error * namespaceManager :=
  match nodes n !! root n with
  | None => (Some NotFound, n)
  | Some r =>
      match children r !! p with
      | Some _ => (Some InvalidRequest, n)
      | None =>
          let f := fresh (dom (nodes n)) in
          (noErr,
           {| root := root n;
              nodes := <[root n := {| isDir := isDir r; children := <[p := f]> (children r);
                                     file_length := file_length r; chunks := chunks r |}]>
                       (<[f := {| isDir := dir; children := ∅; file_length := 0; chunks := 0 |}]>
                          (nodes n)) |})
      end
  end.

#[global] Instance env : Environment CM CSM World := {|
  DefaultNumReplicas := 3;   (* the target replication factor of the spec's example *)
  newNamespaceManager :=
    {| root := 1%positive;
       nodes := {[ 1%positive := {| isDir := true; children := ∅; file_length := 0; chunks := 0 |} ]} |};
  newChunkManager := {| file := []; expire := []; location := []; extensions := [] |};
  newChunkServerManager := {| servers := []; held := [] |};
  nm_lockParents := lockParents;
  nm_Create := addChild false;
  nm_Mkdir := addChild true;
  csm_Heartbeat := Heartbeat;
  csm_DetectDeadServers := ask (fun x => match x with AAddrs l _ => Some l | _ => None end) [];
  csm_RemoveServer := RemoveServer;
  csm_ChooseServers := fun _ =>
    ask (fun x => match x with AAddrs l e => Some (l, e) | _ => None end) ([], noErr);
  csm_ChooseReReplication := fun _ =>
    ask (fun x => match x with AFromTo f t e => Some (f, t, e) | _ => None end)
        (""%string, ""%string, noErr);
  csm_AddChunk := AddChunk;
  cm_chunk_expire := fun c h => assoc h (expire c);
  cm_RemoveChunks := RemoveChunks;
  cm_GetNeedlist := ask (fun x => match x with AHandles l _ => Some l | _ => None end) [];
  cm_RegisterReplica := RegisterReplica;
  cm_ExtendLease := ExtendLease;
  cm_GetLeaseHolder := fun _ =>
    ask (fun x => match x with ALeased l e => Some (l, e) | _ => None end) (emptyLease, noErr);
  cm_GetReplicas := fun _ =>
    ask (fun x => match x with AAddrs l e => Some (l, e) | _ => None end) ([], noErr);
  cm_CreateChunk := CreateChunk;
  cm_GetChunk := GetChunk;
  time_Now := next (fun x => match x with ANow t => Some t | _ => None end) 0;
  util_Call := fun _ _ => next (fun x => match x with AErr e => Some e | _ => None end) noErr;
  net_Listen := fun _ => next (fun x => match x with AErr e => Some e | _ => None end) noErr;
  net_Accept := next (fun x => match x with AErr e => Some e | _ => None end) noErr
|}.

(** *** Inputs for concrete runs *)

Local Open Scope string_scope.

Definition scenario (n : namespaceManager) (c : CM) (cs : CSM) (w : World)
  : @State CM CSM World :=
  {| m_address := "master:7777"; m_serverRoot := "/gfs"; m_shutdown := false;
     m_nm := n; m_cm := c; m_csm := cs; world := w |}.

(** The file node of a file of [n] chunks, and a namespace whose only file
    is ["a.txt"]. *)
Definition file_of (n : Z) : nsTree :=
  {| isDir := false; children := ∅; file_length := 0; chunks := n |}.

Definition one_file (n : Z) : namespaceManager :=
  {| root := 1%positive;
     nodes := <[2%positive := file_of n]>
              {[ 1%positive := {| isDir := true; children := {[ "a.txt" := 2%positive ]};
                                  file_length := 0; chunks := 0 |} ]} |}.

Definition three_servers : CSM := {| servers := ["cs1"; "cs2"; "cs3"]; held := [] |}.

(** Chunk 10 is the only chunk of ["a.txt"]; it is held by two servers and
    its repair is due since instant 100. *)
Definition one_chunk : CM :=
  {| file := [("a.txt", [10])]; expire := [(10, 100)];
     location := [(10, "cs1"); (10, "cs2")]; extensions := [] |}.

(** Two servers are reported dead and removing the first one fails. *)
Definition sweep_fails : @State CM CSM World :=
  scenario newNamespaceManager newChunkManager three_servers
    [AAddrs ["cs1"; "cs2"] None; AHandles [] (Some NotFound)].

(** The next chunk of ["a.txt"] is requested; three servers are chosen and
    [CreateChunk] fails on a storage node. *)
Definition create_fails : @State CM CSM World :=
  scenario (one_file 1) one_chunk three_servers
    [AAddrs ["cs1"; "cs2"; "cs3"] None; ACreated 11 ["cs1"; "cs2"] (Some DownstreamFailure)].

(** The next chunk of ["a.txt"] is requested and no server can be chosen. *)
Definition choose_fails : @State CM CSM World :=
  scenario (one_file 1) one_chunk three_servers [AAddrs [] (Some NoAvailableServers)].

(** No answers are pending: [GetChunk] needs none. *)
Definition lookup_only : @State CM CSM World :=
  scenario (one_file 1) one_chunk three_servers [].

(** Chunk 10 is to be copied from cs1 to cs3 and cs3 cannot be reached. *)
Definition copy_fails : @State CM CSM World :=
  scenario (one_file 1) one_chunk three_servers
    [AFromTo "cs1" "cs3" None; AErr (Some DownstreamFailure)].

(** Two chunks are due for repair.  The repair of the first fails for want
    of a destination; the second is repaired all the same. *)
Definition two_repairs : @State CM CSM World :=
  scenario newNamespaceManager
    {| file := []; expire := [(10, 100); (11, 100)]; location := []; extensions := [] |}
    three_servers
    [ANow 200; AFromTo "" "" (Some NoAvailableServers);
     ANow 201; AFromTo "cs1" "cs3" None; AErr None; AErr None].

End Replay.

(** ** Reading a run *)

(** The three components of a run. *)
Definition outcome {A S} (r : Outcome A * S * list Event) : Outcome A := r.1.1.
Definition final {A S} (r : Outcome A * S * list Event) : S := r.1.2.
Definition trace {A S} (r : Outcome A * S * list Event) : list Event := r.2.

(** The calls that register a replica with the managers. *)
Definition is_registration (e : Event) : bool :=
  match e with
  | EvRegisterReplica _ _ | EvAddChunk _ _ => true
  | _ => false
  end.

(** The calls by which [RPCGetChunkHandle] allocates a chunk. *)
Definition is_allocation (e : Event) : bool :=
  match e with
  | EvChooseServers _ | EvCreateChunk _ _ | EvAddChunk _ _ => true
  | _ => false
  end.

(** The expiry tests of a repair pass, the handles it locked for repair, and
    the results of the repairs it logged. *)
Definition checks (tr : list Event) : list (ChunkHandle * Time * Time) :=
  omap (fun e => match e with EvExpireCheck h x n => Some (h, x, n) | _ => None end) tr.

Definition attempts (tr : list Event) : list ChunkHandle :=
  omap (fun e => match e with EvChunkLock h => Some h | _ => None end) tr.

Definition released (tr : list Event) : list ChunkHandle :=
  omap (fun e => match e with EvChunkUnlock h => Some h | _ => None end) tr.

Definition repair_results (tr : list Event) : list error :=
  omap (fun e => match e with EvLog Info (LogReReplication r) => Some r | _ => None end) tr.

(** The handles among [cs] whose expiry lies before the instant of the test. *)
Definition due (cs : list (ChunkHandle * Time * Time)) : list ChunkHandle :=
  (List.filter (fun c => c.1.2 <? c.2) cs).*1.*1.

(** The dead servers a sweep asked [RemoveServer] about, and those whose
    chunks it then removed with [RemoveChunks]. *)
Definition removed (tr : list Event) : list ServerAddress :=
  omap (fun e => match e with EvRemoveServer a => Some a | _ => None end) tr.

Definition scrubbed (tr : list Event) : list ServerAddress :=
  omap (fun e => match e with EvRemoveChunks _ a => Some a | _ => None end) tr.

(** The locks the master takes: the parents of a path, a namespace node
    (for writing or reading) and a chunk. *)
Inductive LockId :=
| ParentsLock
| NodeLock (f : NodeRef)
| NodeRLock (f : NodeRef)
| ChunkLock (h : ChunkHandle).

#[global] Instance LockId_eq_dec : EqDecision LockId.
Proof. solve_decision. Defined.

(** The locks held after an event, innermost first; [None] when the event
    releases a lock that is not the innermost one held. *)
Definition release (l : LockId) (held : list LockId) : option (list LockId) :=
  match held with
  | l' :: rest => if decide (l = l') then Some rest else None
  | [] => None
  end.

Definition lock_step (held : list LockId) (e : Event) : option (list LockId) :=
  match e with
  | EvLockParents _ => Some (ParentsLock :: held)
  | EvFileLock f => Some (NodeLock f :: held)
  | EvFileRLock f => Some (NodeRLock f :: held)
  | EvChunkLock h => Some (ChunkLock h :: held)
  | EvUnlockParents _ => release ParentsLock held
  | EvFileUnlock f => release (NodeLock f) held
  | EvFileRUnlock f => release (NodeRLock f) held
  | EvChunkUnlock h => release (ChunkLock h) held
  | _ => Some held
  end.

Fixpoint locks_after (held : list LockId) (tr : list Event) : option (list LockId) :=
  match tr with
  | [] => Some held
  | e :: rest =>
      match lock_step held e with
      | Some held' => locks_after held' rest
      | None => None
      end
  end.

(** The order of a re-replication that runs to its end. *)
Definition reReplication_steps (h : ChunkHandle) (from to : ServerAddress) : list Event :=
  [ EvChooseReReplication h;
    EvLog Warning (LogAllocate h from to);
    EvCall to (RPCCreateChunk h);
    EvCall from (RPCSendCopy h to);
    EvRegisterReplica h to;
    EvAddChunk [to] h ].

(** The events of a re-replication are none of the sweep's and take no lock. *)
Definition is_repair_step (e : Event) : bool :=
  match e with
  | EvChooseReReplication _ | EvLog Warning (LogAllocate _ _ _) | EvCall _ _
  | EvRegisterReplica _ _ | EvAddChunk _ _ => true
  | _ => false
  end.

(** The shape of a repair pass over a list of handles: one expiry test per
    handle and, when the expiry has passed, the calls of one re-replication
    between the lock and the unlock of that chunk. *)
Inductive repair_trace : list ChunkHandle → list Event → Prop :=
| repair_nil : repair_trace [] []
| repair_skip h hs x now t :
    (x <? now) = false →
    repair_trace hs t →
    repair_trace (h :: hs) (EvExpireCheck h x now :: t)
| repair_attempt h hs x now from to mid err t :
    (x <? now) = true →
    mid `prefix_of` reReplication_steps h from to →
    repair_trace hs t →
    repair_trace (h :: hs)
      ([EvExpireCheck h x now; EvChunkLock h] ++ mid
       ++ [EvLog Info (LogReReplication err); EvChunkUnlock h] ++ t).

(** The calls of [GetNeedlist] in a trace. *)
Definition asked (tr : list Event) : list unit :=
  omap (fun e => match e with EvGetNeedlist => Some tt | _ => None end) tr.

Section Readings.
Context {CM CSM World : Type} {E : Environment CM CSM World}.
Local Abbreviation M := (@M CM CSM World).
Local Abbreviation State := (@State CM CSM World).

(** [path] names, in the namespace of [s], the node [f] whose record is
    [file]: the lookups at the head of [RPCGetChunkHandle] all succeed. *)
Definition resolves (s : State) (path : Path) (ps : list string) (f : NodeRef) (file : nsTree) : Prop :=
  ∃ cwd dir name,
    nm_lockParents path (m_nm s) = (ps, cwd, None) ∧
    nodes (m_nm s) !! cwd = Some dir ∧
    last ps = Some name ∧
    children dir !! name = Some f ∧
    nodes (m_nm s) !! f = Some file.

(** A computation that never exits the process: it returns or panics. *)
Definition no_exit {A} (c : M A) : Prop := ∀ s, outcome (c s) ≠ Exit.

(** The body of [RPCGetChunkHandle] once the file is found and locked. *)
Definition RPCGetChunkHandle_body (args : GetChunkHandleArg) (reply : GetChunkHandleReply)
    (f : NodeRef) (file : nsTree) : M (GetChunkHandleReply * error) :=
  if gch_Index args =? chunks file then
    RPCGetChunkHandle_append (gch_Path args) f file reply
  else
    bind (call_cm (EvGetChunk (gch_Path args) (gch_Index args))
                  (cm_GetChunk (gch_Path args) (gch_Index args)))
         (fun x => ret ({| gch_Handle := x.1 |}, x.2)).

(** The node [f] after [file.chunks++]. *)
Definition bump (f : NodeRef) (file : nsTree) (s : State) : State :=
  set_nm {| root := root (m_nm s); nodes := <[f := incr_chunks file]> (nodes (m_nm s)) |} s.

(** What only the managers and the world may change: the namespace and the
    master's own fields are the same in [s'] as in [s]. *)
Definition same_namespace (s s' : State) : Prop :=
  m_nm s' = m_nm s ∧ m_address s' = m_address s ∧
  m_serverRoot s' = m_serverRoot s ∧ m_shutdown s' = m_shutdown s.

(** A computation that leaves the namespace and the master's own fields as
    they are, whatever it does to the managers and the world. *)
Definition keeps_namespace {A} (c : M A) : Prop := ∀ s, same_namespace s (final (c s)).

(** A computation that does not look at the [shutdown] channel: it runs the
    same whether the channel is closed or not. *)
Definition shutdown_blind {A} (c : M A) : Prop :=
  ∀ b s, c (set_shutdown b s) = let '(r, s', t) := c s in (r, set_shutdown b s', t).

(** The head that [RPCGetFileInfo] and [RPCGetChunkHandle] share: lock the
    parents of [p], defer their unlocking, give up with [fail] on an error
    or a missing child, and go on with the child found. *)
Definition locate {A} (p : Path) (fail : Err → A) (k : NodeRef → M A) : M A :=
  bind (lockParents p) (fun x =>
    match x with
    | (ps, cwd, err) =>
        defer (emit (EvUnlockParents ps))
          match err with
          | Some e => ret (fail e)
          | None =>
              bind (deref cwd) (fun dir =>
                bind (last_elem ps) (fun name =>
                  match children dir !! name with
                  | None => ret (fail (errFileNotExist p))
                  | Some f => k f
                  end))
          end
    end).

(** The answer of a manager's method called in state [s], and the master's
    state after the call. *)
Definition answer_cm {R} (op : Op CM World R) (s : State) : R := (op (m_cm s) (world s)).1.1.
Definition after_cm {R} (op : Op CM World R) (s : State) : State :=
  set_cm (op (m_cm s) (world s)).1.2 (op (m_cm s) (world s)).2 s.
Definition answer_csm {R} (op : Op CSM World R) (s : State) : R := (op (m_csm s) (world s)).1.1.
Definition after_csm {R} (op : Op CSM World R) (s : State) : State :=
  set_csm (op (m_csm s) (world s)).1.2 (op (m_csm s) (world s)).2 s.

(** The state after the replicas [rep] reported by server [a] have been
    registered one after the other, each with the chunk manager and then
    with the server registry; and the state after the leases of [hs] have
    been extended for [a]. *)
Definition registered (a : ServerAddress) (rep : list ChunkReport) (s : State) : State :=
  fold_left (fun s v => after_csm (csm_AddChunk [a] (Handle v))
                          (after_cm (cm_RegisterReplica (Handle v) a) s)) rep s.

Definition extended (a : ServerAddress) (hs : list ChunkHandle) (s : State) : State :=
  fold_left (fun s h => after_cm (cm_ExtendLease h a) s) hs s.

(** A repair pass over a list of handles, from state to state.  The expiry
    is the one the chunk manager holds for the handle when its turn comes,
    the instant is the clock's at that moment, the repair is a run of
    [reReplication], and the pass goes on from the state that run left,
    whatever its result [err]. *)
Inductive repair_run :
  list ChunkHandle → State → Outcome unit → State → list Event → Prop :=
| repair_run_nil s : repair_run [] s (Done tt) s []
| repair_run_missing h hs s :
    cm_chunk_expire (m_cm s) h = None →
    repair_run (h :: hs) s Panic s []
| repair_run_skip h hs s x r s' t :
    cm_chunk_expire (m_cm s) h = Some x →
    (x <? (time_Now (world s)).1) = false →
    repair_run hs (set_world (time_Now (world s)).2 s) r s' t →
    repair_run (h :: hs) s r s' (EvExpireCheck h x (time_Now (world s)).1 :: t)
| repair_run_attempt h hs s x err s2 tr r s' t :
    cm_chunk_expire (m_cm s) h = Some x →
    (x <? (time_Now (world s)).1) = true →
    reReplication h (set_world (time_Now (world s)).2 s) = (Done err, s2, tr) →
    repair_run hs s2 r s' t →
    repair_run (h :: hs) s r s'
      ([EvExpireCheck h x (time_Now (world s)).1; EvChunkLock h] ++ tr
       ++ [EvLog Info (LogReReplication err); EvChunkUnlock h] ++ t).

(** A dead-node sweep over a list of servers, from state to state: each
    server is removed from the server registry and the handles that call
    returned are removed from the chunk registry; the sweep ends with the
    list, or with the error of the first [RemoveServer] that fails. *)
Inductive sweep_run : list ServerAddress → State → error → State → list Event → Prop :=
| sweep_run_nil s : sweep_run [] s None s []
| sweep_run_fail v rest s hs e c w :
    csm_RemoveServer v (m_csm s) (world s) = (hs, Some e, c, w) →
    sweep_run (v :: rest) s (Some e) (set_csm c w s)
      [EvLog Warning (LogRemoveServer v); EvRemoveServer v]
| sweep_run_next v rest s hs c w err s' t :
    csm_RemoveServer v (m_csm s) (world s) = (hs, None, c, w) →
    sweep_run rest (after_cm (cm_RemoveChunks hs v) (set_csm c w s)) err s' t →
    sweep_run (v :: rest) s err s'
      ([EvLog Warning (LogRemoveServer v); EvRemoveServer v; EvRemoveChunks hs v] ++ t).

End Readings.

(** ** Properties of the master, in any environment *)

Section Properties.
Context {CM CSM World : Type} {E : Environment CM CSM World}.
Local Abbreviation M := (@M CM CSM World).
Local Abbreviation State := (@State CM CSM World).
Local Abbreviation no_exit c := (@no_exit CM CSM World _ c).
Local Abbreviation keeps_namespace c := (@keeps_namespace CM CSM World _ c).
Local Abbreviation shutdown_blind c := (@shutdown_blind CM CSM World _ c).

(** *** The monad's equations *)

Lemma bind_Done {A B} (c : M A) (k : A → M B) s a s1 t1 :
  c s = (Done a, s1, t1) →
  bind c k s = let '(r, s2, t2) := k a s1 in (r, s2, t1 ++ t2).
Proof. intros H. unfold bind. by rewrite H. Qed.

Lemma forEach_run {A} (body : A → M unit) (evs : A → list Event) :
  (∀ x s, ∃ s', body x s = (Done tt, s', evs x)) →
  ∀ l s, ∃ s', forEach l body s = (Done tt, s', concat (map evs l)).
Proof.
  intros Hbody l. induction l as [|x l IH]; intros s; simpl.
  - by exists s.
  - destruct (Hbody x s) as [s1 H1]. destruct (IH s1) as [s2 H2].
    exists s2. unfold bind. by rewrite H1, H2.
Qed.

Lemma call_cm_run {R} ev (op : Op CM World R) (s : State) :
  call_cm ev op s =
  (Done (op (m_cm s) (world s)).1.1,
   set_cm (op (m_cm s) (world s)).1.2 (op (m_cm s) (world s)).2 s, [ev]).
Proof. unfold call_cm. by destruct (op _ _) as [[r c] w]. Qed.

Lemma call_csm_run {R} ev (op : Op CSM World R) (s : State) :
  call_csm ev op s =
  (Done (op (m_csm s) (world s)).1.1,
   set_csm (op (m_csm s) (world s)).1.2 (op (m_csm s) (world s)).2 s, [ev]).
Proof. unfold call_csm. by destruct (op _ _) as [[r c] w]. Qed.

Lemma call_world_run {R} evs (op : World → R * World) (s : State) :
  call_world evs op s = (Done (op (world s)).1, set_world (op (world s)).2 s, evs).
Proof. unfold call_world. by destruct (op _) as [r w]. Qed.

(** *** RPCExtendLease *)

(** C4.  [RPCExtendLease] is a stub: for every handle, requester and state
    it returns nil, leaves the reply as it was given and changes nothing in
    the master, so no lease is extended, also when the requester is the
    primary. *)
Theorem RPCExtendLease_changes_nothing (args : ExtendLeaseArg) (reply : ExtendLeaseReply) (s : State) :
  RPCExtendLease args reply s = (Done (reply, None), s, []).
Proof. reflexivity. Qed.

(** *** RPCHeartbeat *)

(** A loop whose body always returns: the state is folded through the
    list and the events are those of each turn, in order. *)
Lemma forEach_fold {A} (body : A → M unit) (step : A → State → State)
    (evs : A → list Event) :
  (∀ x s, body x s = (Done tt, step x s, evs x)) →
  ∀ l s, forEach l body s =
         (Done tt, fold_left (fun s x => step x s) l s, concat (map evs l)).
Proof.
  intros Hbody l. induction l as [|x l IH]; intros s; simpl; [done|].
  unfold bind. by rewrite Hbody, IH.
Qed.

(** The run of a heartbeat. *)
Lemma RPCHeartbeat_run (args : HeartbeatArg) (reply : HeartbeatReply) (s : State) :
  let a := hb_Address args in
  let rep := answer_csm (csm_Heartbeat a) s in
  RPCHeartbeat args reply s =
  (Done (reply, None),
   extended a (hb_LeaseExtensions args) (registered a rep (after_csm (csm_Heartbeat a) s)),
   [EvHeartbeat a]
   ++ concat (map (fun v => [EvRegisterReplica (Handle v) a; EvAddChunk [a] (Handle v)]) rep)
   ++ concat (map (fun h => [EvExtendLease h a]) (hb_LeaseExtensions args)) ++ []).
Proof.
  intros a rep. unfold RPCHeartbeat.
  rewrite (bind_Done _ _ _ _ _ _ (call_csm_run _ _ _)).
  fold a. fold (answer_csm (csm_Heartbeat a) s). fold rep.
  fold (after_csm (csm_Heartbeat a) s).
  unfold bind at 1.
  rewrite (forEach_fold _
    (fun v s0 => after_csm (csm_AddChunk [a] (Handle v))
                   (after_cm (cm_RegisterReplica (Handle v) a) s0))
    (fun v => [EvRegisterReplica (Handle v) a; EvAddChunk [a] (Handle v)])).
  2:{ intros v s0. unfold bind. by rewrite call_cm_run, call_csm_run. }
  unfold bind at 1.
  rewrite (forEach_fold _
    (fun h s0 => after_cm (cm_ExtendLease h a) s0)
    (fun h => [EvExtendLease h a])).
  2:{ intros h s0. unfold bind. by rewrite call_cm_run. }
  reflexivity.
Qed.

(** C8.  A heartbeat first calls [csm.Heartbeat] for the sender, which
    records its liveness in the server registry; then, for each replica
    that call reports, [cm.RegisterReplica] followed by [csm.AddChunk] for
    the sender; then [cm.ExtendLease] for each handle of [LeaseExtensions];
    and it returns nil.  The state it leaves is the one these calls
    produce, applied in that order, each to the state the one before
    left. *)
Theorem RPCHeartbeat_order (args : HeartbeatArg) (reply : HeartbeatReply) (s : State) :
  let a := hb_Address args in
  let rep := answer_csm (csm_Heartbeat a) s in
  let run := RPCHeartbeat args reply s in
  outcome run = Done (reply, None) ∧
  trace run =
    EvHeartbeat a
    :: concat (map (fun v => [EvRegisterReplica (Handle v) a; EvAddChunk [a] (Handle v)]) rep)
    ++ map (fun h => EvExtendLease h a) (hb_LeaseExtensions args) ∧
  final run =
    extended a (hb_LeaseExtensions args)
      (registered a rep (after_csm (csm_Heartbeat a) s)).
Proof.
  intros a rep run. subst run. rewrite RPCHeartbeat_run. fold a. fold rep.
  unfold outcome, trace, final. simpl.
  split; [done|]. split; [|done]. f_equal. f_equal.
  rewrite app_nil_r. clear. induction (hb_LeaseExtensions args); simpl; congruence.
Qed.

(** *** reReplication *)

(** [reReplication] always returns: it neither panics nor exits, and what
    it does is an initial part of the protocol's steps. *)
Lemma reReplication_returns (handle : ChunkHandle) (s : State) :
  ∃ err s' tr, reReplication handle s = (Done err, s', tr) ∧
    checks tr = [] ∧ attempts tr = [] ∧ released tr = [] ∧ repair_results tr = [] ∧
    ∃ from to, tr `prefix_of` reReplication_steps handle from to.
Proof.
  unfold reReplication, bind, call_csm, call_world, call_cm, log, emit, ret.
  destruct (csm_ChooseReReplication handle (m_csm s) (world s)) as [[[[from to] e0] c1] w1].
  assert (Hp : ∀ tr k, reReplication_steps handle from to = tr ++ k →
               ∃ from to, tr `prefix_of` reReplication_steps handle from to).
  { intros tr k Hk. exists from, to. by exists k. }
  destruct e0 as [e|]; simpl.
  { do 3 eexists. repeat split; try done. by eapply (Hp [_]). }
  destruct (util_Call to (RPCCreateChunk handle) w1) as [e1 w2].
  destruct e1 as [e|]; simpl.
  { do 3 eexists. repeat split; try done. by eapply (Hp [_; _; _]). }
  destruct (util_Call from (RPCSendCopy handle to) w2) as [e2 w3].
  destruct e2 as [e|]; simpl.
  { do 3 eexists. repeat split; try done. by eapply (Hp [_; _; _; _]). }
  destruct (cm_RegisterReplica handle to (m_cm s) w3) as [[r4 c4] w4]. simpl.
  destruct (csm_AddChunk [to] handle c1 w4) as [[r5 c5] w5]. simpl.
  do 3 eexists. repeat split; try done. eapply (Hp _ []). by rewrite app_nil_r.
Qed.

(** C5.  Re-replication of a chunk runs in this order: [ChooseReReplication]
    picks source and destination, the destination is told to create the
    chunk, the source is told to send its copy, and only when all three
    succeeded are [RegisterReplica] and [AddChunk] called for the
    destination.  When a step fails, the error of that step is returned,
    the calls made are an initial part of that order without either
    registration, and both managers are left as they were.  The choice of
    source and destination is taken to be a query of the server registry. *)
Theorem reReplication_protocol (handle : ChunkHandle) (s : State)
  (Hquery : ∀ h c w, (csm_ChooseReReplication h c w).1.2 = c) :
  let '(from, to, e0, c1, w1) := csm_ChooseReReplication handle (m_csm s) (world s) in
  let '(e1, w2) := util_Call to (RPCCreateChunk handle) w1 in
  let '(e2, w3) := util_Call from (RPCSendCopy handle to) w2 in
  let '(_, c4, w4) := cm_RegisterReplica handle to (m_cm s) w3 in
  let '(_, c5, _) := csm_AddChunk [to] handle (m_csm s) w4 in
  let run := reReplication handle s in
  match outcome run with
  | Done None =>
      e0 = None ∧ e1 = None ∧ e2 = None ∧
      trace run = reReplication_steps handle from to ∧
      m_cm (final run) = c4 ∧ m_csm (final run) = c5
  | Done (Some e) =>
      (e0 = Some e ∨ (e0 = None ∧ e1 = Some e) ∨ (e0 = None ∧ e1 = None ∧ e2 = Some e)) ∧
      trace run `prefix_of` reReplication_steps handle from to ∧
      filter is_registration (trace run) = [] ∧
      m_cm (final run) = m_cm s ∧ m_csm (final run) = m_csm s
  | _ => False
  end.
Proof.
  pose proof (Hquery handle (m_csm s) (world s)) as Hq.
  unfold reReplication, bind, call_csm, call_world, call_cm, log, emit, ret.
  destruct (csm_ChooseReReplication handle (m_csm s) (world s)) as [[[[from to] e0] c1] w1].
  simpl in Hq. subst c1.
  destruct (util_Call to (RPCCreateChunk handle) w1) as [e1 w2] eqn:H1.
  destruct (util_Call from (RPCSendCopy handle to) w2) as [e2 w3] eqn:H2.
  destruct (cm_RegisterReplica handle to (m_cm s) w3) as [[r4 c4] w4] eqn:H4.
  destruct (csm_AddChunk [to] handle (m_csm s) w4) as [[r5 c5] w5] eqn:H5.
  unfold reReplication_steps, outcome, trace, final.
  destruct e0 as [e|]; simpl.
  { split; [eauto|split; [by eexists|done]]. }
  rewrite H1. destruct e1 as [e|]; simpl.
  { split; [eauto 6|split; [by eexists|done]]. }
  rewrite H2. destruct e2 as [e|]; simpl.
  { split; [eauto 6|split; [by eexists|done]]. }
  rewrite H4. simpl. rewrite H5. simpl. done.
Qed.

(** *** The repair pass *)

Lemma expired_run (h : ChunkHandle) (s : State) :
  expired h s =
  match cm_chunk_expire (m_cm s) h with
  | None => (Panic, s, [])
  | Some x => (Done (x <? (time_Now (world s)).1), set_world (time_Now (world s)).2 s,
               [EvExpireCheck h x (time_Now (world s)).1])
  end.
Proof.
  unfold expired. destruct (cm_chunk_expire _ _); [|done]. by destruct (time_Now _).
Qed.

Lemma due_app cs1 cs2 : due (cs1 ++ cs2) = due cs1 ++ due cs2.
Proof. unfold due. by rewrite List.filter_app, !fmap_app. Qed.

Lemma checks_app t1 t2 : checks (t1 ++ t2) = checks t1 ++ checks t2.
Proof. apply omap_app. Qed.
Lemma attempts_app t1 t2 : attempts (t1 ++ t2) = attempts t1 ++ attempts t2.
Proof. apply omap_app. Qed.
Lemma released_app t1 t2 : released (t1 ++ t2) = released t1 ++ released t2.
Proof. apply omap_app. Qed.
Lemma repair_results_app t1 t2 :
  repair_results (t1 ++ t2) = repair_results t1 ++ repair_results t2.
Proof. apply omap_app. Qed.

(** One turn of the repair loop: the handle has no record, its expiry has
    not passed, or its repair is attempted. *)
Lemma repair_cons_missing h rest (s : State) :
  cm_chunk_expire (m_cm s) h = None →
  backgroundActivity_repair (h :: rest) s = (Panic, s, []).
Proof. intros Hx. simpl. unfold bind. by rewrite expired_run, Hx. Qed.

Lemma repair_cons_skip h rest (s : State) x :
  cm_chunk_expire (m_cm s) h = Some x →
  (x <? (time_Now (world s)).1) = false →
  backgroundActivity_repair (h :: rest) s =
  let '(r, s', t) := backgroundActivity_repair rest (set_world (time_Now (world s)).2 s) in
  (r, s', EvExpireCheck h x (time_Now (world s)).1 :: t).
Proof.
  intros Hx Hb. simpl. unfold bind at 1. rewrite expired_run, Hx, Hb.
  unfold bind, ret. by destruct (backgroundActivity_repair rest _) as [[[] ?] ?].
Qed.

Lemma repair_cons_attempt h rest (s : State) x :
  cm_chunk_expire (m_cm s) h = Some x →
  (x <? (time_Now (world s)).1) = true →
  ∃ err s2 tr,
    reReplication h (set_world (time_Now (world s)).2 s) = (Done err, s2, tr) ∧
    backgroundActivity_repair (h :: rest) s =
    let '(r, s', t) := backgroundActivity_repair rest s2 in
    (r, s', [EvExpireCheck h x (time_Now (world s)).1; EvChunkLock h] ++ tr
            ++ [EvLog Info (LogReReplication err); EvChunkUnlock h] ++ t).
Proof.
  intros Hx Hb.
  destruct (reReplication_returns h (set_world (time_Now (world s)).2 s))
    as (err & s2 & tr & Hr & _).
  exists err, s2, tr. split; [done|].
  simpl. unfold bind at 1. rewrite expired_run, Hx, Hb.
  unfold bind, emit, log, emit. rewrite Hr.
  destruct (backgroundActivity_repair rest s2) as [[[] ?] ?]; simpl;
    by rewrite <- ?app_assoc.
Qed.

(** The repair loop runs as [repair_run] says, and in no other way. *)
Lemma repair_runs (handles : list ChunkHandle) (s : State) :
  let run := backgroundActivity_repair handles s in
  repair_run handles s (outcome run) (final run) (trace run).
Proof.
  revert s. induction handles as [|h rest IH]; intros s run.
  { apply repair_run_nil. }
  subst run.
  destruct (cm_chunk_expire (m_cm s) h) as [x|] eqn:Hx.
  2:{ rewrite (repair_cons_missing _ _ _ Hx). by apply repair_run_missing. }
  destruct (x <? (time_Now (world s)).1) eqn:Hb.
  - destruct (repair_cons_attempt h rest s x Hx Hb) as (err & s2 & tr & Hr & ->).
    specialize (IH s2). unfold outcome, final, trace in *.
    destruct (backgroundActivity_repair rest s2) as [[r s3] t3]. simpl in *.
    by eapply repair_run_attempt.
  - rewrite (repair_cons_skip h rest s x Hx Hb).
    specialize (IH (set_world (time_Now (world s)).2 s)). unfold outcome, final, trace in *.
    destruct (backgroundActivity_repair rest _) as [[r s3] t3]. simpl in *.
    by apply repair_run_skip.
Qed.

Lemma repair_run_sound handles (s : State) r s' t :
  repair_run handles s r s' t → backgroundActivity_repair handles s = (r, s', t).
Proof.
  induction 1 as [s|h hs s Hx|h hs s x r s' t Hx Hb _ IH|h hs s x err s2 tr r s' t Hx Hb Hr _ IH].
  - done.
  - by apply repair_cons_missing.
  - by rewrite (repair_cons_skip h hs s x Hx Hb), IH.
  - destruct (repair_cons_attempt h hs s x Hx Hb) as (err' & s2' & tr' & Hr' & ->).
    rewrite Hr in Hr'. injection Hr' as <- <- <-. by rewrite IH.
Qed.

(** What the events of a repair pass add up to. *)
Lemma repair_counts (handles : list ChunkHandle) (s : State) :
  let run := backgroundActivity_repair handles s in
  attempts (trace run) = due (checks (trace run)) ∧
  released (trace run) = attempts (trace run) ∧
  List.length (repair_results (trace run)) = List.length (attempts (trace run)) ∧
  ((outcome run = Done tt ∧ (checks (trace run)).*1.*1 = handles) ∨
   (outcome run = Panic ∧ ∃ h, h ∈ handles ∧ cm_chunk_expire (m_cm (final run)) h = None)).
Proof.
  revert s. induction handles as [|h rest IH]; intros s run.
  { subst run. unfold outcome, trace. simpl. repeat split; auto. }
  pose proof (eq_refl run) as Hrun. unfold run at 2 in Hrun. clearbody run.
  destruct (cm_chunk_expire (m_cm s) h) as [x|] eqn:Hx.
  2:{ rewrite (repair_cons_missing _ _ _ Hx) in Hrun. subst run.
      unfold outcome, trace, final. simpl. repeat split; auto.
      right. split; [done|]. exists h. split; [apply list_elem_of_here|done]. }
  destruct (x <? (time_Now (world s)).1) eqn:Hb.
  - destruct (repair_cons_attempt h rest s x Hx Hb) as (err & s2 & tr & Hr & Heq).
    destruct (reReplication_returns h (set_world (time_Now (world s)).2 s))
      as (err' & s2' & tr' & Hr' & Hc & Ha & Hl & Hg & _).
    rewrite Hr in Hr'. injection Hr' as <- <- <-.
    rewrite Heq in Hrun. clear Heq.
    specialize (IH s2).
    destruct (backgroundActivity_repair rest s2) as [[r s3] t3].
    subst run. unfold outcome, trace, final in *. cbn [fst snd] in *.
    destruct IH as (IH1 & IH2 & IH3 & IH4).
    rewrite !checks_app, !attempts_app, !released_app, !repair_results_app, !due_app.
    rewrite Hc, Ha, Hl, Hg.
    change (checks [EvExpireCheck h x (time_Now (world s)).1; EvChunkLock h])
      with [(h, x, (time_Now (world s)).1)].
    change (due [(h, x, (time_Now (world s)).1)])
      with ((if x <? (time_Now (world s)).1 then [(h, x, (time_Now (world s)).1)] else []).*1.*1).
    rewrite Hb. cbn.
    split; [by f_equal|]. split; [by f_equal|]. split; [by f_equal|].
    destruct IH4 as [[-> <-]|[-> (h' & Hin & Hnone)]].
    + left. done.
    + right. split; [done|]. exists h'. split; [by apply list_elem_of_further|done].
  - rewrite (repair_cons_skip h rest s x Hx Hb) in Hrun.
    specialize (IH (set_world (time_Now (world s)).2 s)).
    destruct (backgroundActivity_repair rest _) as [[r s3] t3].
    subst run. unfold outcome, trace, final in *. cbn [fst snd] in *.
    destruct IH as (IH1 & IH2 & IH3 & IH4).
    change (EvExpireCheck h x (time_Now (world s)).1 :: t3)
      with ([EvExpireCheck h x (time_Now (world s)).1] ++ t3).
    rewrite !checks_app, !attempts_app, !released_app, !repair_results_app, !due_app.
    change (checks [EvExpireCheck h x (time_Now (world s)).1])
      with [(h, x, (time_Now (world s)).1)].
    change (due [(h, x, (time_Now (world s)).1)])
      with ((if x <? (time_Now (world s)).1 then [(h, x, (time_Now (world s)).1)] else []).*1.*1).
    rewrite Hb. cbn.
    split; [done|]. split; [done|]. split; [done|].
    destruct IH4 as [[-> <-]|[-> (h' & Hin & Hnone)]].
    + left. done.
    + right. split; [done|]. exists h'. split; [by apply list_elem_of_further|done].
Qed.

(** C6.  The repair pass runs as [repair_run] describes, for every list of
    handles and every state.  Each handle is tested in turn: its expiry is
    read from the chunk manager and compared with the clock.  When the
    expiry is not before the clock the handle is passed over: nothing is
    locked and [reReplication] is not run.  When it is, the chunk is
    locked, [reReplication] is run for it, its result is logged and the
    chunk unlocked; whatever that result, error or nil, the pass goes on
    with the remaining handles from the state the repair left.  The one
    thing that stops the pass is a handle with no chunk record, on which
    the field read panics. *)
Theorem backgroundActivity_repair_isolates (handles : list ChunkHandle) (s : State) :
  let run := backgroundActivity_repair handles s in
  repair_run handles s (outcome run) (final run) (trace run) ∧
  (∀ r s' t, repair_run handles s r s' t → run = (r, s', t)) ∧
  attempts (trace run) = due (checks (trace run)) ∧
  released (trace run) = attempts (trace run) ∧
  List.length (repair_results (trace run)) = List.length (attempts (trace run)) ∧
  ((outcome run = Done tt ∧ (checks (trace run)).*1.*1 = handles) ∨
   (outcome run = Panic ∧ ∃ h, h ∈ handles ∧ cm_chunk_expire (m_cm (final run)) h = None)).
Proof.
  intros run. split; [apply repair_runs|]. split; [apply repair_run_sound|].
  apply repair_counts.
Qed.

(** Every re-replication of the repair pass runs between the lock and the
    unlock of its chunk: a pass that returns has the shape [repair_trace],
    in which the calls of [reReplication h] are enclosed by [EvChunkLock h]
    and [EvChunkUnlock h], also when the re-replication fails. *)
Theorem backgroundActivity_repair_locks (handles : list ChunkHandle) (s : State) :
  match outcome (backgroundActivity_repair handles s) with
  | Done _ => repair_trace handles (trace (backgroundActivity_repair handles s))
  | _ => True
  end.
Proof.
  revert s. induction handles as [|h rest IH]; intros s.
  { apply repair_nil. }
  destruct (cm_chunk_expire (m_cm s) h) as [x|] eqn:Hx.
  2:{ by rewrite (repair_cons_missing _ _ _ Hx). }
  destruct (x <? (time_Now (world s)).1) eqn:Hb.
  - destruct (repair_cons_attempt h rest s x Hx Hb) as (err & s2 & tr & Hr & ->).
    destruct (reReplication_returns h (set_world (time_Now (world s)).2 s))
      as (err' & s2' & tr' & Hr' & _ & _ & _ & _ & from & to & Hp).
    rewrite Hr in Hr'. injection Hr' as <- <- <-.
    specialize (IH s2). unfold outcome, trace in *.
    destruct (backgroundActivity_repair rest s2) as [[[[]| |] s3] t3]; simpl in *; try done.
    by eapply repair_attempt.
  - rewrite (repair_cons_skip h rest s x Hx Hb).
    specialize (IH (set_world (time_Now (world s)).2 s)). unfold outcome, trace in *.
    destruct (backgroundActivity_repair rest _) as [[[[]| |] s3] t3]; simpl in *; try done.
    by apply repair_skip.
Qed.

(** *** The dead-node sweep *)

(** C1.  The dead-node sweep stops at the first dead server whose
    [RemoveServer] fails: when [DetectDeadServers] returns [v :: rest] and
    [RemoveServer v] returns an error, [backgroundActivity] returns that
    error at once; no server of [rest] is processed and the repair pass
    does not run. *)
Theorem backgroundActivity_stops_at_first_error (s : State) v rest c1 w1 handles e c2 w2 :
  csm_DetectDeadServers (m_csm s) (world s) = (v :: rest, c1, w1) →
  csm_RemoveServer v c1 w1 = (handles, Some e, c2, w2) →
  backgroundActivity s =
  (Done (Some e), set_csm c2 w2 s,
   [EvDetectDeadServers; EvLog Warning (LogRemoveServer v); EvRemoveServer v]).
Proof.
  intros Hd Hr. unfold backgroundActivity, bind, call_csm. rewrite Hd. simpl.
  unfold bind, log, emit, call_csm. simpl. rewrite Hr. reflexivity.
Qed.

(** *** What ends the process *)

Lemma no_exit_ret {A} (a : A) : no_exit (ret a).
Proof. by intros s. Qed.

Lemma no_exit_panic {A} : no_exit (@panic CM CSM World A).
Proof. by intros s. Qed.

Lemma no_exit_emit e : no_exit (emit e).
Proof. by intros s. Qed.

Lemma no_exit_log l m : no_exit (log l m).
Proof. by intros s. Qed.

Lemma no_exit_bind {A B} (c : M A) (k : A → M B) :
  no_exit c → (∀ a, no_exit (k a)) → no_exit (bind c k).
Proof.
  intros Hc Hk s. specialize (Hc s). unfold bind, outcome in *.
  destruct (c s) as [[[a| |] s1] t1]; simpl in *; try done.
  specialize (Hk a s1). unfold outcome in Hk.
  by destruct (k a s1) as [[r s2] t2].
Qed.

Lemma no_exit_defer {A} (d : M unit) (body : M A) :
  no_exit d → no_exit body → no_exit (defer d body).
Proof.
  intros Hd Hb s. specialize (Hb s). unfold defer, outcome in *.
  destruct (body s) as [[[a| |] s1] t1]; simpl in *; try done;
    specialize (Hd s1); unfold outcome in Hd;
    by destruct (d s1) as [[[[]| |] s2] t2].
Qed.

Lemma no_exit_call_cm {R} ev (op : Op CM World R) : no_exit (call_cm ev op).
Proof. intros s. by rewrite call_cm_run. Qed.

Lemma no_exit_call_csm {R} ev (op : Op CSM World R) : no_exit (call_csm ev op).
Proof. intros s. by rewrite call_csm_run. Qed.

Lemma no_exit_call_world {R} evs (op : World → R * World) : no_exit (call_world evs op).
Proof. intros s. by rewrite call_world_run. Qed.

Lemma no_exit_call_nm {R} ev (op : namespaceManager → R * namespaceManager) :
  no_exit (call_nm ev op).
Proof. intros s. unfold call_nm. by destruct (op _). Qed.

Lemma no_exit_deref r : no_exit (deref r).
Proof. intros s. unfold deref. by destruct (_ !! _). Qed.

Lemma no_exit_store r t : no_exit (store r t).
Proof. by intros s. Qed.

Lemma no_exit_last_elem ps : no_exit (last_elem ps).
Proof. unfold last_elem. destruct (last ps); [apply no_exit_ret|apply no_exit_panic]. Qed.

Lemma no_exit_lockParents p : no_exit (lockParents p).
Proof. by intros s. Qed.

Lemma no_exit_expired h : no_exit (expired h).
Proof. intros s. rewrite expired_run. by destruct (cm_chunk_expire _ _). Qed.

Lemma no_exit_forEach {A} (l : list A) (body : A → M unit) :
  (∀ x, no_exit (body x)) → no_exit (forEach l body).
Proof.
  intros Hb. induction l; simpl; [apply no_exit_ret|].
  apply no_exit_bind; auto.
Qed.

Create HintDb noexit.
#[local] Hint Resolve no_exit_ret no_exit_panic no_exit_emit no_exit_log no_exit_call_cm
  no_exit_call_csm no_exit_call_world no_exit_call_nm no_exit_deref no_exit_store
  no_exit_last_elem no_exit_lockParents no_exit_expired : noexit.

(** Splits a computation along its binds, defers and case distinctions. *)
Ltac no_exit_step :=
  match goal with
  | |- no_exit (bind _ _) => apply no_exit_bind; [|intros ?]
  | |- no_exit (defer _ _) => apply no_exit_defer
  | |- no_exit (forEach _ _) => apply no_exit_forEach; intros ?
  | |- no_exit (match ?x with _ => _ end) => destruct x
  | |- no_exit (if ?b then _ else _) => destruct b
  | |- no_exit _ => solve [auto with noexit]
  end.





Lemma no_exit_RPCGetChunkHandle args reply : no_exit (RPCGetChunkHandle args reply).
Proof. unfold RPCGetChunkHandle, RPCGetChunkHandle_append. repeat no_exit_step. Qed.

Lemma no_exit_RPCGetFileInfo args reply : no_exit (RPCGetFileInfo args reply).
Proof. unfold RPCGetFileInfo. repeat no_exit_step. Qed.

Lemma no_exit_RPCHeartbeat args reply : no_exit (RPCHeartbeat args reply).
Proof. unfold RPCHeartbeat. repeat no_exit_step. Qed.

(** [RPCDelete] and [RPCList] are not implemented: a call to either logs
    that fact with [log.Fatal] and so ends the process. *)
Theorem unimplemented_RPCs_exit (path : Path) (s : State) :
  RPCDelete path s = (Exit, s, [EvLog Fatal (LogUnimplemented "RPCDelete")]) ∧
  RPCList path s = (Exit, s, [EvLog Fatal (LogUnimplemented "RPCList")]).
Proof. split; reflexivity. Qed.

(** *** RPCGetChunkHandle *)

Lemma RPCGetChunkHandle_resolved args reply (s : State) ps f file :
  resolves s (gch_Path args) ps f file →
  RPCGetChunkHandle args reply s =
  let '(r, s1, t1) := RPCGetChunkHandle_body args reply f file s in
  (r, s1, [EvLockParents (gch_Path args); EvFileLock f] ++ t1
          ++ [EvFileUnlock f; EvUnlockParents ps]).
Proof.
  intros (cwd & dir & name & Hl & Hcwd & Hlast & Hf & Hfile).
  assert (Hne : no_exit (RPCGetChunkHandle_body args reply f file)).
  { unfold RPCGetChunkHandle_body, RPCGetChunkHandle_append. repeat no_exit_step. }
  specialize (Hne s). unfold outcome in Hne.
  assert (Hbody : ∀ s0,
    bind (deref f) (fun file0 =>
      if gch_Index args =? chunks file0
      then RPCGetChunkHandle_append (gch_Path args) f file0 reply
      else bind (call_cm (EvGetChunk (gch_Path args) (gch_Index args))
                         (cm_GetChunk (gch_Path args) (gch_Index args)))
             (fun x => match x with (handle, err) => ret ({| gch_Handle := handle |}, err) end))
      s0 =
    match nodes (m_nm s0) !! f with
    | Some file0 =>
        let '(r, s1, t1) := RPCGetChunkHandle_body args reply f file0 s0 in (r, s1, t1)
    | None => (Panic, s0, [])
    end).
  { intros s0. unfold bind at 1, deref. destruct (nodes (m_nm s0) !! f) as [file0|]; [|done].
    unfold RPCGetChunkHandle_body. destruct (gch_Index args =? chunks file0).
    - by destruct (RPCGetChunkHandle_append _ _ _ _ _) as [[? ?] ?].
    - unfold bind. rewrite call_cm_run.
      by destruct (cm_GetChunk _ _ _ _) as [[[? ?] ?] ?]. }
  unfold RPCGetChunkHandle. unfold bind at 1, lockParents. rewrite Hl.
  unfold defer at 1. unfold bind at 1, deref at 1. rewrite Hcwd.
  unfold bind at 1, last_elem. rewrite Hlast. unfold ret at 1. rewrite Hf.
  unfold bind at 1, deref at 1. rewrite Hfile.
  unfold bind at 1, emit at 1. unfold defer at 1.
  rewrite Hbody, Hfile.
  destruct (RPCGetChunkHandle_body args reply f file s) as [[[a| |] s1] t1];
    try done; unfold emit; simpl; by rewrite <- ?app_assoc.
Qed.

Lemma RPCGetChunkHandle_append_run path f file reply (s : State) :
  RPCGetChunkHandle_append path f file reply s =
  let '(addrs, e1, c1, w1) := csm_ChooseServers DefaultNumReplicas (m_csm s) (world s) in
  match e1 with
  | Some e => (Done (reply, Some e), set_csm c1 w1 (bump f file s),
               [EvChooseServers DefaultNumReplicas])
  | None =>
      let '(h, addrs', e2, c2, w2) := cm_CreateChunk path addrs (m_cm s) w1 in
      match e2 with
      | Some e => (Done ({| gch_Handle := h |}, None), set_cm c2 w2 (set_csm c1 w1 (bump f file s)),
                   [EvChooseServers DefaultNumReplicas; EvCreateChunk path addrs;
                    EvLog Warning (LogIgnored e)])
      | None =>
          let '(_, c3, w3) := csm_AddChunk addrs' h c1 w2 in
          (Done ({| gch_Handle := h |}, None),
           set_csm c3 w3 (set_cm c2 w2 (bump f file s)),
           [EvChooseServers DefaultNumReplicas; EvCreateChunk path addrs; EvAddChunk addrs' h])
      end
  end.
Proof.
  unfold RPCGetChunkHandle_append, bind, store, call_csm, call_cm, log, emit, ret. simpl.
  destruct (csm_ChooseServers DefaultNumReplicas (m_csm s) (world s)) as [[[addrs e1] c1] w1].
  destruct e1 as [e|]; simpl; [done|].
  destruct (cm_CreateChunk path addrs (m_cm s) w1) as [[[[h addrs'] e2] c2] w2].
  destruct e2 as [e|]; simpl; [done|].
  by destruct (csm_AddChunk addrs' h c1 w2) as [[r3 c3] w3].
Qed.

(** C2.  When the requested index is the file's chunk count, an error of
    [ChooseServers] is returned to the caller unchanged, but an error of
    [CreateChunk] is not: it is logged as ignored, [AddChunk] is skipped,
    and the call returns nil with the handle [CreateChunk] gave. *)
Theorem RPCGetChunkHandle_ignores_CreateChunk_error
    args reply (s : State) ps f file :
  resolves s (gch_Path args) ps f file →
  gch_Index args = chunks file →
  let '(addrs, e1, c1, w1) := csm_ChooseServers DefaultNumReplicas (m_csm s) (world s) in
  let '(h, addrs', e2, c2, w2) := cm_CreateChunk (gch_Path args) addrs (m_cm s) w1 in
  let run := RPCGetChunkHandle args reply s in
  match e1, e2 with
  | Some e, _ => outcome run = Done (reply, Some e)
  | None, Some e =>
      outcome run = Done ({| gch_Handle := h |}, None) ∧
      EvLog Warning (LogIgnored e) ∈ trace run ∧
      List.filter is_registration (trace run) = [] ∧
      m_csm (final run) = c1
  | None, None =>
      outcome run = Done ({| gch_Handle := h |}, None) ∧
      List.filter is_registration (trace run) = [EvAddChunk addrs' h]
  end.
Proof.
  intros Hres Hidx.
  rewrite (RPCGetChunkHandle_resolved _ reply _ _ _ _ Hres).
  unfold RPCGetChunkHandle_body. rewrite Hidx, Z.eqb_refl.
  rewrite RPCGetChunkHandle_append_run.
  destruct (csm_ChooseServers DefaultNumReplicas (m_csm s) (world s)) as [[[addrs e1] c1] w1].
  destruct (cm_CreateChunk (gch_Path args) addrs (m_cm s) w1) as [[[[h addrs'] e2] c2] w2].
  destruct e1 as [e|]; [done|].
  destruct e2 as [e|]; unfold outcome, trace, final; simpl.
  - split; [done|]. split; [|done]. set_solver.
  - by destruct (csm_AddChunk addrs' h c1 w2) as [[r3 c3] w3].
Qed.

(** C3.  For a path that names a file, [RPCGetChunkHandle] sets out to
    allocate a chunk exactly when the index is the file's chunk count.
    For any other index it allocates nothing and leaves the namespace and
    the server registry alone: it returns the handle and the error of
    [GetChunk] unchanged. *)
Theorem RPCGetChunkHandle_allocates_iff_next_index
    args reply (s : State) ps f file :
  resolves s (gch_Path args) ps f file →
  let run := RPCGetChunkHandle args reply s in
  (gch_Index args = chunks file ↔ EvChooseServers DefaultNumReplicas ∈ trace run) ∧
  (gch_Index args ≠ chunks file →
   let '(h, err, c, w) := cm_GetChunk (gch_Path args) (gch_Index args) (m_cm s) (world s) in
   outcome run = Done ({| gch_Handle := h |}, err) ∧
   List.filter is_allocation (trace run) = [] ∧
   m_nm (final run) = m_nm s ∧ m_csm (final run) = m_csm s ∧ m_cm (final run) = c).
Proof.
  intros Hres run. subst run.
  rewrite (RPCGetChunkHandle_resolved _ reply _ _ _ _ Hres).
  unfold RPCGetChunkHandle_body.
  destruct (gch_Index args =? chunks file) eqn:Heq.
  - apply Z.eqb_eq in Heq. split; [|done]. split; [intros _|done].
    rewrite RPCGetChunkHandle_append_run.
    destruct (csm_ChooseServers DefaultNumReplicas (m_csm s) (world s)) as [[[addrs e1] c1] w1].
    destruct e1 as [e|]; [unfold trace; simpl; set_solver|].
    destruct (cm_CreateChunk (gch_Path args) addrs (m_cm s) w1) as [[[[h addrs'] e2] c2] w2].
    destruct e2 as [e|]; [unfold trace; simpl; set_solver|].
    destruct (csm_AddChunk addrs' h c1 w2) as [[r3 c3] w3].
    unfold trace; simpl; set_solver.
  - apply Z.eqb_neq in Heq. unfold bind. rewrite call_cm_run.
    destruct (cm_GetChunk (gch_Path args) (gch_Index args) (m_cm s) (world s))
      as [[[h err] c] w].
    unfold outcome, trace, final; simpl. split; [|done].
    split; [done|]. intros Hin. exfalso.
    repeat (apply elem_of_cons in Hin as [Hin|Hin]; [discriminate|]).
    by apply elem_of_nil in Hin.
Qed.


(** *** What the background cycle and the manager calls leave alone *)

Lemma same_namespace_refl (s : State) : same_namespace s s.
Proof. by repeat split. Qed.

Lemma same_namespace_trans (s1 s2 s3 : State) :
  same_namespace s1 s2 → same_namespace s2 s3 → same_namespace s1 s3.
Proof. intros (? & ? & ? & ?) (? & ? & ? & ?). repeat split; congruence. Qed.

Lemma keeps_ret {A} (a : A) : keeps_namespace (ret a : M A).
Proof. intros s. apply same_namespace_refl. Qed.

Lemma keeps_panic {A} : keeps_namespace (panic : M A).
Proof. intros s. apply same_namespace_refl. Qed.

Lemma keeps_emit e : keeps_namespace (emit e : M unit).
Proof. intros s. apply same_namespace_refl. Qed.

Lemma keeps_log l m : keeps_namespace (log l m : M unit).
Proof. intros s. apply same_namespace_refl. Qed.

Lemma keeps_bind {A B} (c : M A) (k : A → M B) :
  keeps_namespace c → (∀ a, keeps_namespace (k a)) → keeps_namespace (bind c k).
Proof.
  intros Hc Hk s. specialize (Hc s). unfold bind, final in *.
  destruct (c s) as [[[a| |] s1] t1]; simpl in *; try done.
  specialize (Hk a s1). unfold final in Hk.
  destruct (k a s1) as [[r s2] t2]. simpl in *. by eapply same_namespace_trans.
Qed.

Lemma keeps_defer {A} (d : M unit) (body : M A) :
  keeps_namespace d → keeps_namespace body → keeps_namespace (defer d body).
Proof.
  intros Hd Hb s. specialize (Hb s). unfold defer, final in *.
  destruct (body s) as [[[a| |] s1] t1]; simpl in *; try done;
    specialize (Hd s1); unfold final in Hd;
    destruct (d s1) as [[[[]| |] s2] t2]; simpl in *; by eapply same_namespace_trans.
Qed.

Lemma keeps_forEach {A} (l : list A) (body : A → M unit) :
  (∀ x, keeps_namespace (body x)) → keeps_namespace (forEach l body).
Proof.
  intros Hb. induction l; simpl; [apply keeps_ret|]. apply keeps_bind; auto.
Qed.

Lemma keeps_call_cm {R} ev (op : Op CM World R) : keeps_namespace (call_cm ev op).
Proof. intros s. rewrite call_cm_run. by repeat split. Qed.

Lemma keeps_call_csm {R} ev (op : Op CSM World R) : keeps_namespace (call_csm ev op).
Proof. intros s. rewrite call_csm_run. by repeat split. Qed.

Lemma keeps_call_world {R} evs (op : World → R * World) : keeps_namespace (call_world evs op).
Proof. intros s. rewrite call_world_run. by repeat split. Qed.

Lemma keeps_expired h : keeps_namespace (expired h).
Proof.
  intros s. rewrite expired_run. destruct (cm_chunk_expire _ _); by repeat split.
Qed.

Lemma keeps_deref r : keeps_namespace (deref r).
Proof. intros s. unfold deref. destruct (_ !! _); apply same_namespace_refl. Qed.

Lemma keeps_last_elem ps : keeps_namespace (last_elem ps).
Proof. unfold last_elem. destruct (last ps); [apply keeps_ret|apply keeps_panic]. Qed.

Lemma keeps_lockParents p : keeps_namespace (lockParents p).
Proof. intros s. apply same_namespace_refl. Qed.

Create HintDb keeps.
#[local] Hint Resolve keeps_ret keeps_panic keeps_emit keeps_log keeps_call_cm keeps_call_csm
  keeps_call_world keeps_expired keeps_deref keeps_last_elem keeps_lockParents : keeps.

Ltac keeps_step :=
  match goal with
  | |- keeps_namespace (bind _ _) => apply keeps_bind; [|intros ?]
  | |- keeps_namespace (defer _ _) => apply keeps_defer
  | |- keeps_namespace (forEach _ _) => apply keeps_forEach; intros ?
  | |- keeps_namespace (match ?x with _ => _ end) => destruct x
  | |- keeps_namespace (if ?b then _ else _) => destruct b
  | |- keeps_namespace _ => solve [auto with keeps]
  end.

Lemma keeps_reReplication h : keeps_namespace (reReplication h).
Proof. unfold reReplication. repeat keeps_step. Qed.

Lemma keeps_sweep addrs : keeps_namespace (backgroundActivity_sweep addrs).
Proof. induction addrs; simpl; repeat keeps_step. Qed.

Lemma keeps_repair handles : keeps_namespace (backgroundActivity_repair handles).
Proof. induction handles; simpl; repeat keeps_step; auto using keeps_reReplication. Qed.

Lemma keeps_backgroundActivity : keeps_namespace backgroundActivity.
Proof. unfold backgroundActivity. repeat keeps_step; auto using keeps_sweep, keeps_repair. Qed.

(** The background cycle, a re-replication, a heartbeat and the lease,
    replica and file-information queries change the managers and the world
    at most: the namespace tree, the master's address and root, and the
    state of the [shutdown] channel are after the call what they were
    before it, however the call ends. *)
Theorem namespace_untouched :
  keeps_namespace backgroundActivity ∧
  (∀ h, keeps_namespace (reReplication h)) ∧
  (∀ args reply, keeps_namespace (RPCHeartbeat args reply)) ∧
  (∀ h reply, keeps_namespace (RPCGetPrimaryAndSecondaries h reply)) ∧
  (∀ h reply, keeps_namespace (RPCGetReplicas h reply)) ∧
  (∀ args reply, keeps_namespace (RPCGetFileInfo args reply)).
Proof.
  split; [apply keeps_backgroundActivity|]. split; [apply keeps_reReplication|].
  split; [|split; [|split]]; intros.
  - unfold RPCHeartbeat. repeat keeps_step.
  - unfold RPCGetPrimaryAndSecondaries. repeat keeps_step.
  - unfold RPCGetReplicas. repeat keeps_step.
  - unfold RPCGetFileInfo. repeat keeps_step.
Qed.

(** *** The whole sweep and the whole cycle *)

Lemma removed_app t1 t2 : removed (t1 ++ t2) = removed t1 ++ removed t2.
Proof. apply omap_app. Qed.
Lemma scrubbed_app t1 t2 : scrubbed (t1 ++ t2) = scrubbed t1 ++ scrubbed t2.
Proof. apply omap_app. Qed.

Lemma sweep_cons_fail v rest (s : State) hs e c w :
  csm_RemoveServer v (m_csm s) (world s) = (hs, Some e, c, w) →
  backgroundActivity_sweep (v :: rest) s =
  (Done (Some e), set_csm c w s, [EvLog Warning (LogRemoveServer v); EvRemoveServer v]).
Proof. intros H. simpl. unfold bind, log, emit, call_csm. simpl. by rewrite H. Qed.

Lemma sweep_cons_ok v rest (s : State) hs c w :
  csm_RemoveServer v (m_csm s) (world s) = (hs, None, c, w) →
  backgroundActivity_sweep (v :: rest) s =
  let '(_, c', w') := cm_RemoveChunks hs v (m_cm s) w in
  let '(r, s', t) := backgroundActivity_sweep rest (set_cm c' w' (set_csm c w s)) in
  (r, s', [EvLog Warning (LogRemoveServer v); EvRemoveServer v; EvRemoveChunks hs v] ++ t).
Proof.
  intros H. simpl. unfold bind at 1, log, emit. unfold bind at 1, call_csm. simpl. rewrite H.
  unfold bind at 1, call_cm. simpl.
  destruct (cm_RemoveChunks hs v (m_cm s) w) as [[r' c'] w'].
  by destruct (backgroundActivity_sweep rest _) as [[[?| |] ?] ?].
Qed.


Lemma prefix_steps tr h from to :
  tr `prefix_of` reReplication_steps h from to → Forall (fun e => is_repair_step e = true) tr.
Proof.
  intros [k Hk].
  assert (H : Forall (fun e => is_repair_step e = true) (tr ++ k)).
  { rewrite <- Hk. unfold reReplication_steps. repeat constructor. }
  by apply Forall_app in H as [? _].
Qed.

Lemma steps_not_swept tr :
  Forall (fun e => is_repair_step e = true) tr → removed tr = [] ∧ scrubbed tr = [].
Proof.
  induction 1 as [|e tr He _ [IH1 IH2]]; [done|].
  destruct e; try discriminate He; split; first [exact IH1|exact IH2].
Qed.

Lemma steps_take_no_lock tr held :
  Forall (fun e => is_repair_step e = true) tr → locks_after held tr = Some held.
Proof.
  induction 1 as [|e tr He _ IH]; [done|].
  destruct e; try discriminate He; exact IH.
Qed.

Lemma locks_after_app held t1 t2 :
  locks_after held (t1 ++ t2) = locks_after held t1 ≫= fun held' => locks_after held' t2.
Proof.
  revert held. induction t1 as [|e t1 IH]; intros held; simpl; [done|].
  destruct (lock_step held e); simpl; [apply IH|done].
Qed.

Lemma release_here l held : release l (l :: held) = Some held.
Proof. unfold release. by rewrite decide_True. Qed.

(** What a repair pass does, however it ends. *)
Lemma repair_facts (handles : list ChunkHandle) (s : State) :
  let run := backgroundActivity_repair handles s in
  removed (trace run) = [] ∧ scrubbed (trace run) = [] ∧
  (∀ held, locks_after held (trace run) = Some held) ∧
  ((outcome run = Done tt ∧ repair_trace handles (trace run)) ∨
   (outcome run = Panic ∧ ∃ h, h ∈ handles ∧ cm_chunk_expire (m_cm (final run)) h = None)).
Proof.
  revert s. induction handles as [|h rest IH]; intros s run.
  { subst run. unfold outcome, trace. simpl. repeat split; auto. left. split; [done|constructor]. }
  pose proof (eq_refl run) as Hrun. unfold run at 2 in Hrun. clearbody run.
  destruct (cm_chunk_expire (m_cm s) h) as [x|] eqn:Hx.
  2:{ rewrite (repair_cons_missing _ _ _ Hx) in Hrun. subst run.
      unfold outcome, trace, final. simpl. repeat split; auto.
      right. split; [done|]. exists h. split; [apply list_elem_of_here|done]. }
  destruct (x <? (time_Now (world s)).1) eqn:Hb.
  - destruct (repair_cons_attempt h rest s x Hx Hb) as (err & s2 & tr & Hr & Heq).
    destruct (reReplication_returns h (set_world (time_Now (world s)).2 s))
      as (err' & s2' & tr' & Hr' & _ & _ & _ & _ & from & to & Hp).
    rewrite Hr in Hr'. injection Hr' as <- <- <-.
    pose proof (prefix_steps _ _ _ _ Hp) as Hsteps.
    destruct (steps_not_swept _ Hsteps) as [Hrm Hsc].
    rewrite Heq in Hrun. clear Heq.
    specialize (IH s2).
    destruct (backgroundActivity_repair rest s2) as [[r s3] t3].
    subst run. unfold outcome, trace, final in *. cbn [fst snd] in *.
    destruct IH as (IH1 & IH2 & IH3 & IH4).
    rewrite !removed_app, !scrubbed_app, Hrm, Hsc, IH1, IH2.
    split; [done|]. split; [done|]. split.
    + intros held. simpl. rewrite locks_after_app.
      rewrite (steps_take_no_lock _ _ Hsteps). simpl. unfold release.
      rewrite decide_True by done. apply IH3.
    + destruct IH4 as [[-> Ht]|[-> (h' & Hin & Hnone)]].
      * left. split; [done|]. by eapply repair_attempt.
      * right. split; [done|]. exists h'. split; [by apply list_elem_of_further|done].
  - rewrite (repair_cons_skip h rest s x Hx Hb) in Hrun.
    specialize (IH (set_world (time_Now (world s)).2 s)).
    destruct (backgroundActivity_repair rest _) as [[r s3] t3].
    subst run. unfold outcome, trace, final in *. cbn [fst snd] in *.
    destruct IH as (IH1 & IH2 & IH3 & IH4).
    split; [done|]. split; [done|]. split; [intros held; apply IH3|].
    destruct IH4 as [[-> Ht]|[-> (h' & Hin & Hnone)]].
    + left. split; [done|]. by apply repair_skip.
    + right. split; [done|]. exists h'. split; [by apply list_elem_of_further|done].
Qed.

(** What a sweep does, however it ends. *)
Lemma sweep_facts (addrs : list ServerAddress) (s : State) :
  let run := backgroundActivity_sweep addrs s in
  removed (trace run) `prefix_of` addrs ∧
  checks (trace run) = [] ∧
  (EvGetNeedlist ∉ trace run) ∧
  (∀ held, locks_after held (trace run) = Some held) ∧
  match outcome run with
  | Done None => removed (trace run) = addrs ∧ scrubbed (trace run) = addrs
  | Done (Some e) => ∃ v, removed (trace run) = scrubbed (trace run) ++ [v]
  | _ => False
  end.
Proof.
  revert s. induction addrs as [|v rest IH]; intros s run.
  { subst run. unfold outcome, trace. simpl. repeat split; auto. apply not_elem_of_nil. }
  pose proof (eq_refl run) as Hrun. unfold run at 2 in Hrun. clearbody run.
  destruct (csm_RemoveServer v (m_csm s) (world s)) as [[[hs [e|]] c] w] eqn:Hr.
  - rewrite (sweep_cons_fail _ _ _ _ _ _ _ Hr) in Hrun. subst run.
    unfold outcome, trace. simpl. split; [by exists rest|]. split; [done|].
    split; [|split; [done|by exists v]].
    intros Hin. repeat (apply elem_of_cons in Hin as [Hin|Hin]; [discriminate|]).
    by apply elem_of_nil in Hin.
  - rewrite (sweep_cons_ok _ _ _ _ _ _ Hr) in Hrun.
    destruct (cm_RemoveChunks hs v (m_cm s) w) as [[r' c'] w'].
    specialize (IH (set_cm c' w' (set_csm c w s))).
    destruct (backgroundActivity_sweep rest _) as [[r s'] t].
    subst run. unfold outcome, trace in *. cbn [fst snd] in *.
    destruct IH as (IH1 & IH2 & IH3 & IH4 & IH5).
    rewrite removed_app, scrubbed_app, checks_app.
    change (removed [_; _; _]) with [v]. change (scrubbed [_; _; _]) with [v].
    change (checks [_; _; _]) with (@nil (ChunkHandle * Time * Time)).
    split; [by apply prefix_cons|]. split; [done|]. split; [|split].
    + intros Hin. apply elem_of_app in Hin as [Hin|Hin]; [|done].
      repeat (apply elem_of_cons in Hin as [Hin|Hin]; [discriminate|]).
      by apply elem_of_nil in Hin.
    + intros held. rewrite locks_after_app. simpl. apply IH4.
    + destruct r as [[e|]| |]; try done.
      * destruct IH5 as [v' ->]. by exists v'.
      * destruct IH5 as [-> ->]. done.
Qed.

(** The sweep loop runs as [sweep_run] says, and in no other way. *)
Lemma sweep_runs (addrs : list ServerAddress) (s : State) :
  ∃ err s' t, backgroundActivity_sweep addrs s = (Done err, s', t) ∧
              sweep_run addrs s err s' t.
Proof.
  revert s. induction addrs as [|v rest IH]; intros s.
  { exists None, s, []. split; [done|apply sweep_run_nil]. }
  destruct (csm_RemoveServer v (m_csm s) (world s)) as [[[hs [e|]] c] w] eqn:Hr.
  - rewrite (sweep_cons_fail _ _ _ _ _ _ _ Hr). do 3 eexists. split; [done|].
    by eapply sweep_run_fail.
  - rewrite (sweep_cons_ok _ _ _ _ _ _ Hr).
    destruct (IH (after_cm (cm_RemoveChunks hs v) (set_csm c w s))) as (err & s' & t & Hrun & Hsw).
    unfold after_cm in Hrun. simpl in Hrun.
    destruct (cm_RemoveChunks hs v (m_cm s) w) as [[r' c'] w'] eqn:Hc. simpl in Hrun.
    rewrite Hrun. do 3 eexists. split; [done|].
    by eapply sweep_run_next.
Qed.

Lemma sweep_run_sound addrs (s : State) err s' t :
  sweep_run addrs s err s' t → backgroundActivity_sweep addrs s = (Done err, s', t).
Proof.
  induction 1 as [s|v rest s hs e c w Hr|v rest s hs c w err s' t Hr _ IH].
  - done.
  - by eapply sweep_cons_fail.
  - rewrite (sweep_cons_ok _ _ _ _ _ _ Hr).
    unfold after_cm in IH. simpl in IH.
    destruct (cm_RemoveChunks hs v (m_cm s) w) as [[r' c'] w']. simpl in IH. by rewrite IH.
Qed.

(** The dead-node sweep runs as [sweep_run] describes.  It takes the dead
    servers in the order given: each is removed with [RemoveServer] and
    then the handles that call returned are removed for it with
    [RemoveChunks], each call on the state the one before left, until the
    list ends (the sweep gives nil) or a [RemoveServer] fails (the sweep
    gives that call's error): the servers before the failing one have
    been scrubbed, the failing one has not, and none after it is touched.
    The sweep never panics. *)
Theorem backgroundActivity_sweep_order (addrs : list ServerAddress) (s : State) :
  let run := backgroundActivity_sweep addrs s in
  (∃ err, outcome run = Done err ∧ sweep_run addrs s err (final run) (trace run)) ∧
  (∀ err s' t, sweep_run addrs s err s' t → run = (Done err, s', t)) ∧
  removed (trace run) `prefix_of` addrs ∧
  checks (trace run) = [] ∧
  match outcome run with
  | Done None => removed (trace run) = addrs ∧ scrubbed (trace run) = addrs
  | Done (Some e) => ∃ v, removed (trace run) = scrubbed (trace run) ++ [v]
  | _ => False
  end.
Proof.
  intros run. split; [|split; [apply sweep_run_sound|]].
  - destruct (sweep_runs addrs s) as (err & s' & t & Hrun & Hsw).
    exists err. subst run. rewrite Hrun. by split.
  - pose proof (sweep_facts addrs s) as (H1 & H2 & _ & _ & H5). by repeat split.
Qed.

Lemma asked_app t1 t2 : asked (t1 ++ t2) = asked t1 ++ asked t2.
Proof. apply omap_app. Qed.

Lemma steps_not_asked tr :
  Forall (fun e => is_repair_step e = true) tr → asked tr = [].
Proof.
  induction 1 as [|e tr He _ IH]; [done|].
  destruct e; try discriminate He; exact IH.
Qed.

Lemma sweep_run_not_asked addrs (s : State) err s' t :
  sweep_run addrs s err s' t → asked t = [].
Proof. by induction 1. Qed.

Lemma repair_run_not_asked handles (s : State) r s' t :
  repair_run handles s r s' t → asked t = [].
Proof.
  induction 1 as [s|h hs s Hx|h hs s x r s' t Hx Hb _ IH|h hs s x err s2 tr r s' t Hx Hb Hr _ IH];
    try done.
  destruct (reReplication_returns h (set_world (time_Now (world s)).2 s))
    as (err' & s2' & tr' & Hr' & _ & _ & _ & _ & from & to & Hp).
  rewrite Hr in Hr'. injection Hr' as <- <- <-.
  rewrite !asked_app, (steps_not_asked _ (prefix_steps _ _ _ _ Hp)), IH. done.
Qed.

Lemma sweep_run_not_checked addrs (s : State) err s' t :
  sweep_run addrs s err s' t → checks t = [].
Proof. by induction 1. Qed.

(** A maintenance cycle, from the answer of [DetectDeadServers] on. *)
Lemma backgroundActivity_run (s : State) :
  ∃ err s2 t2,
    sweep_run (answer_csm csm_DetectDeadServers s) (after_csm csm_DetectDeadServers s)
              err s2 t2 ∧
    match err with
    | Some e => backgroundActivity s = (Done (Some e), s2, EvDetectDeadServers :: t2)
    | None =>
        let handles := answer_cm cm_GetNeedlist s2 in
        let pass := backgroundActivity_repair handles (after_cm cm_GetNeedlist s2) in
        backgroundActivity s =
        (match outcome pass with Done _ => Done None | Panic => Panic | Exit => Exit end,
         final pass,
         EvDetectDeadServers :: t2
         ++ [EvGetNeedlist; EvLog Info (LogBackground handles)] ++ trace pass)
    end.
Proof.
  destruct (sweep_runs (answer_csm csm_DetectDeadServers s) (after_csm csm_DetectDeadServers s))
    as (err & s2 & t2 & Hrun & Hsw).
  exists err, s2, t2. split; [done|].
  assert (Hhead : backgroundActivity s =
    let '(r, s', t) :=
      bind (backgroundActivity_sweep (answer_csm csm_DetectDeadServers s))
        (fun err => match err with
           | Some e => ret (Some e)
           | None =>
               bind (call_cm EvGetNeedlist cm_GetNeedlist) (fun handles =>
                 bind (log Info (LogBackground handles)) (fun _ =>
                   bind (backgroundActivity_repair handles) (fun _ => ret None)))
           end) (after_csm csm_DetectDeadServers s) in
    (r, s', [EvDetectDeadServers] ++ t)).
  { unfold backgroundActivity. unfold bind at 1. by rewrite call_csm_run. }
  destruct err as [e|]; cbv zeta; rewrite Hhead; clear Hhead; unfold bind at 1; rewrite Hrun.
  { unfold ret. simpl. by rewrite app_nil_r. }
  unfold bind at 1. rewrite call_cm_run.
  fold (answer_cm cm_GetNeedlist s2). fold (after_cm cm_GetNeedlist s2).
  unfold bind at 1, log, emit. unfold bind at 1. unfold outcome, final, trace.
  destruct (backgroundActivity_repair _ _) as [[[[]| |] s4] t4]; simpl;
    by rewrite ?app_nil_r.
Qed.

(** A maintenance cycle asks [DetectDeadServers] for the dead servers and
    sweeps them, as [sweep_run] describes.  If the sweep stops at a failing
    [RemoveServer] the cycle returns that call's error at once: the need
    list is not asked for and no chunk is tested.  Otherwise [GetNeedlist]
    is called, once, on the state the sweep left, its answer is logged, and
    the repair pass runs over exactly that answer, as [repair_run]
    describes, from the state [GetNeedlist] left.  The cycle then returns
    nil, whatever the repairs returned, in the state the pass left, unless
    a handle of the need list has no chunk record: then it panics.  The
    need list of a cycle is asked for at most once. *)
Theorem backgroundActivity_cycle (s : State) :
  let run := backgroundActivity s in
  ∃ err s2 t2,
    sweep_run (answer_csm csm_DetectDeadServers s) (after_csm csm_DetectDeadServers s)
              err s2 t2 ∧
    match err with
    | Some e =>
        run = (Done (Some e), s2, EvDetectDeadServers :: t2) ∧
        asked (trace run) = [] ∧ checks (trace run) = []
    | None =>
        let handles := answer_cm cm_GetNeedlist s2 in
        let pass := backgroundActivity_repair handles (after_cm cm_GetNeedlist s2) in
        repair_run handles (after_cm cm_GetNeedlist s2) (outcome pass) (final pass) (trace pass) ∧
        trace run = EvDetectDeadServers :: t2
                    ++ [EvGetNeedlist; EvLog Info (LogBackground handles)] ++ trace pass ∧
        final run = final pass ∧
        asked (trace run) = [tt] ∧
        ((outcome pass = Done tt ∧ outcome run = Done None) ∨
         (outcome pass = Panic ∧ outcome run = Panic ∧
          ∃ h, h ∈ handles ∧ cm_chunk_expire (m_cm (final run)) h = None))
    end.
Proof.
  intros run. subst run.
  destruct (backgroundActivity_run s) as (err & s2 & t2 & Hsw & Hrun).
  exists err, s2, t2. split; [done|].
  pose proof (sweep_run_not_asked _ _ _ _ _ Hsw) as Ha.
  pose proof (sweep_run_not_checked _ _ _ _ _ Hsw) as Hc.
  destruct err as [e|].
  { rewrite Hrun. unfold trace. simpl. by repeat split. }
  cbv zeta in Hrun. rewrite Hrun.
  set (handles := answer_cm cm_GetNeedlist s2).
  set (s3 := after_cm cm_GetNeedlist s2).
  pose proof (repair_runs handles s3) as Hrep. cbv zeta in Hrep.
  pose proof (repair_run_not_asked _ _ _ _ _ Hrep) as Ha'.
  pose proof (repair_facts handles s3) as (_ & _ & _ & Hend).
  split; [done|].
  destruct (backgroundActivity_repair handles s3) as [[r s4] t4].
  unfold outcome, final, trace in *. cbn [fst snd] in *.
  split; [done|]. split; [done|]. split.
  { change (EvDetectDeadServers :: ?l) with ([EvDetectDeadServers] ++ l).
    rewrite !asked_app, Ha, Ha'. done. }
  destruct Hend as [[-> _]|[-> Hh]]; [left|right]; by repeat split.
Qed.

(** *** Looking a path up *)

Lemma RPCGetChunkHandle_locate args reply :
  RPCGetChunkHandle args reply =
  locate (gch_Path args) (fun e => (reply, Some e)) (fun f =>
    bind (deref f) (fun _ => bind (emit (EvFileLock f)) (fun _ =>
      defer (emit (EvFileUnlock f))
        (bind (deref f) (fun file =>
           if gch_Index args =? chunks file then
             RPCGetChunkHandle_append (gch_Path args) f file reply
           else
             bind (call_cm (EvGetChunk (gch_Path args) (gch_Index args))
                           (cm_GetChunk (gch_Path args) (gch_Index args)))
                  (fun x => match x with
                            | (handle, err) => ret ({| gch_Handle := handle |}, err)
                            end)))))).
Proof. reflexivity. Qed.

Lemma RPCGetFileInfo_locate args reply :
  RPCGetFileInfo args reply =
  locate (gfi_Path args) (fun e => (reply, Some e)) (fun f =>
    bind (deref f) (fun _ => bind (emit (EvFileRLock f)) (fun _ =>
      defer (emit (EvFileRUnlock f))
        (bind (deref f) (fun file =>
           ret ({| gfi_IsDir := isDir file; gfi_Length := file_length file;
                   gfi_Chunks := chunks file |}, None)))))).
Proof. reflexivity. Qed.

(** The ways a path lookup ends before a node is found, and what is left to
    do once it is found. *)
Lemma locate_run {A} p (fail : Err → A) (k : NodeRef → M A) (s : State) :
  let '(ps, cwd, err) := nm_lockParents p (m_nm s) in
  let quiet := [EvLockParents p; EvUnlockParents ps] in
  match err with
  | Some e => locate p fail k s = (Done (fail e), s, quiet)
  | None =>
      match nodes (m_nm s) !! cwd, last ps with
      | Some dir, Some name =>
          match children dir !! name with
          | None => locate p fail k s = (Done (fail (errFileNotExist p)), s, quiet)
          | Some f =>
              locate p fail k s =
              match k f s with
              | (Exit, s1, t1) => (Exit, s1, EvLockParents p :: t1)
              | (r, s1, t1) => (r, s1, [EvLockParents p] ++ t1 ++ [EvUnlockParents ps])
              end
          end
      | _, _ => locate p fail k s = (Panic, s, quiet)
      end
  end.
Proof.
  assert (Hrun : locate p fail k s =
    let '(ps, cwd, err) := nm_lockParents p (m_nm s) in
    let quiet := [EvLockParents p; EvUnlockParents ps] in
    match err with
    | Some e => (Done (fail e), s, quiet)
    | None =>
        match nodes (m_nm s) !! cwd, last ps with
        | Some dir, Some name =>
            match children dir !! name with
            | None => (Done (fail (errFileNotExist p)), s, quiet)
            | Some f =>
                match k f s with
                | (Exit, s1, t1) => (Exit, s1, EvLockParents p :: t1)
                | (r, s1, t1) => (r, s1, [EvLockParents p] ++ t1 ++ [EvUnlockParents ps])
                end
            end
        | _, _ => (Panic, s, quiet)
        end
    end).
  { unfold locate, bind at 1, lockParents.
    destruct (nm_lockParents p (m_nm s)) as [[ps cwd] [e|]]; [done|].
    unfold defer, bind at 1, deref.
    destruct (nodes (m_nm s) !! cwd) as [dir|]; [|done].
    unfold bind at 1, last_elem.
    destruct (last ps) as [name|]; [|done]. unfold ret at 1.
    destruct (children dir !! name) as [f|]; [|done].
    by destruct (k f s) as [[[a| |] s1] t1]. }
  rewrite Hrun. clear Hrun.
  destruct (nm_lockParents p (m_nm s)) as [[ps cwd] [e|]]; [done|].
  destruct (nodes (m_nm s) !! cwd) as [dir|]; [|done].
  destruct (last ps) as [name|]; [|done].
  by destruct (children dir !! name) as [f|].
Qed.

Lemma file_info_run f (s : State) :
  bind (deref f) (fun _ => bind (emit (EvFileRLock f)) (fun _ =>
    defer (emit (EvFileRUnlock f))
      (bind (deref f) (fun file =>
         ret ({| gfi_IsDir := isDir file; gfi_Length := file_length file;
                 gfi_Chunks := chunks file |}, @None Err))))) s =
  match nodes (m_nm s) !! f with
  | Some file => (Done ({| gfi_IsDir := isDir file; gfi_Length := file_length file;
                           gfi_Chunks := chunks file |}, None), s,
                  [EvFileRLock f; EvFileRUnlock f])
  | None => (Panic, s, [])
  end.
Proof.
  unfold bind at 1, deref at 1. destruct (nodes (m_nm s) !! f) as [file|] eqn:Hf; [|done].
  unfold bind, emit, defer, deref, ret. by rewrite Hf.
Qed.

Lemma chunk_handle_run args reply f (s : State) :
  bind (deref f) (fun _ => bind (emit (EvFileLock f)) (fun _ =>
    defer (emit (EvFileUnlock f))
      (bind (deref f) (fun file =>
         if gch_Index args =? chunks file then
           RPCGetChunkHandle_append (gch_Path args) f file reply
         else
           bind (call_cm (EvGetChunk (gch_Path args) (gch_Index args))
                         (cm_GetChunk (gch_Path args) (gch_Index args)))
                (fun x => match x with
                          | (handle, err) => ret ({| gch_Handle := handle |}, err)
                          end))))) s =
  match nodes (m_nm s) !! f with
  | Some file =>
      let '(r, s1, t1) := RPCGetChunkHandle_body args reply f file s in
      (r, s1, [EvFileLock f] ++ t1 ++ [EvFileUnlock f])
  | None => (Panic, s, [])
  end.
Proof.
  unfold bind at 1, deref at 1. destruct (nodes (m_nm s) !! f) as [file|] eqn:Hf; [|done].
  assert (Hne : no_exit (RPCGetChunkHandle_body args reply f file)).
  { unfold RPCGetChunkHandle_body, RPCGetChunkHandle_append. repeat no_exit_step. }
  specialize (Hne s). unfold outcome in Hne.
  unfold bind at 1, emit at 1, defer at 1. unfold bind at 1, deref at 1. rewrite Hf.
  unfold RPCGetChunkHandle_body in *.
  destruct (gch_Index args =? chunks file).
  - destruct (RPCGetChunkHandle_append _ _ _ _ _) as [[[a| |] s1] t1]; try done;
      unfold emit; simpl; by rewrite ?app_nil_r.
  - unfold bind in *. rewrite call_cm_run in *.
    by destruct (cm_GetChunk _ _ _ _) as [[[? ?] ?] ?].
Qed.

(** A path that cannot be followed to a node.  For [RPCGetChunkHandle] and
    [RPCGetFileInfo] alike: the error of [lockParents] is returned as it
    is; a name that is no child of the parent gives "File ... does not
    exist"; an empty list of path elements, a nil parent or a nil child
    panics.  In each case the reply and the whole state are untouched, no
    node is locked, and [unlockParents] has run. *)
Theorem path_lookup_failures (p : Path) (i : ChunkIndex) (reply : GetChunkHandleReply)
    (freply : GetFileInfoReply) (s : State) :
  let '(ps, cwd, err) := nm_lockParents p (m_nm s) in
  let quiet := [EvLockParents p; EvUnlockParents ps] in
  let handle := RPCGetChunkHandle {| gch_Path := p; gch_Index := i |} reply s in
  let info := RPCGetFileInfo {| gfi_Path := p |} freply s in
  match err with
  | Some e =>
      handle = (Done (reply, Some e), s, quiet) ∧ info = (Done (freply, Some e), s, quiet)
  | None =>
      match nodes (m_nm s) !! cwd, last ps with
      | Some dir, Some name =>
          match children dir !! name with
          | None =>
              handle = (Done (reply, Some (errFileNotExist p)), s, quiet) ∧
              info = (Done (freply, Some (errFileNotExist p)), s, quiet)
          | Some f =>
              nodes (m_nm s) !! f = None →
              handle = (Panic, s, quiet) ∧ info = (Panic, s, quiet)
          end
      | _, _ => handle = (Panic, s, quiet) ∧ info = (Panic, s, quiet)
      end
  end.
Proof.
  rewrite RPCGetChunkHandle_locate, RPCGetFileInfo_locate. cbn [gch_Path gfi_Path gch_Index].
  pose proof (locate_run p (fun e => (reply, Some e)) (fun f =>
    bind (deref f) (fun _ => bind (emit (EvFileLock f)) (fun _ =>
      defer (emit (EvFileUnlock f))
        (bind (deref f) (fun file =>
           if i =? chunks file then RPCGetChunkHandle_append p f file reply
           else bind (call_cm (EvGetChunk p i) (cm_GetChunk p i))
                  (fun x => match x with
                            | (handle, err) => ret ({| gch_Handle := handle |}, err)
                            end)))))) s) as H1.
  pose proof (locate_run p (fun e => (freply, Some e)) (fun f =>
    bind (deref f) (fun _ => bind (emit (EvFileRLock f)) (fun _ =>
      defer (emit (EvFileRUnlock f))
        (bind (deref f) (fun file =>
           ret ({| gfi_IsDir := isDir file; gfi_Length := file_length file;
                   gfi_Chunks := chunks file |}, @None Err)))))) s) as H2.
  destruct (nm_lockParents p (m_nm s)) as [[ps cwd] [e|]]; [done|].
  destruct (nodes (m_nm s) !! cwd) as [dir|]; [|done].
  destruct (last ps) as [name|]; [|done].
  destruct (children dir !! name) as [f|]; [|done].
  intros Hf. rewrite H1, H2.
  pose proof (chunk_handle_run {| gch_Path := p; gch_Index := i |} reply f s) as H3.
  cbn [gch_Path gch_Index] in H3. rewrite H3, file_info_run.
  by rewrite Hf.
Qed.

(** [RPCGetFileInfo] only reads: whatever the path, the master's state after
    the call is its state before.  It returns without error exactly for a
    path that names a node, with that node's directory flag, length and
    chunk count; when it returns an error the reply is the one passed
    in. *)
Theorem RPCGetFileInfo_reads (args : GetFileInfoArg) (reply : GetFileInfoReply) (s : State) :
  let run := RPCGetFileInfo args reply s in
  let info file := {| gfi_IsDir := isDir file; gfi_Length := file_length file;
                      gfi_Chunks := chunks file |} in
  final run = s ∧
  (∀ ps f file, resolves s (gfi_Path args) ps f file → outcome run = Done (info file, None)) ∧
  match outcome run with
  | Done (r, None) => ∃ ps f file, resolves s (gfi_Path args) ps f file ∧ r = info file
  | Done (r, Some e) => r = reply
  | Panic => True
  | Exit => False
  end.
Proof.
  intros run info. subst run. rewrite RPCGetFileInfo_locate.
  pose proof (locate_run (gfi_Path args) (fun e => (reply, Some e)) (fun f =>
    bind (deref f) (fun _ => bind (emit (EvFileRLock f)) (fun _ =>
      defer (emit (EvFileRUnlock f))
        (bind (deref f) (fun file =>
           ret ({| gfi_IsDir := isDir file; gfi_Length := file_length file;
                   gfi_Chunks := chunks file |}, @None Err)))))) s) as H.
  unfold resolves.
  destruct (nm_lockParents (gfi_Path args) (m_nm s)) as [[ps cwd] [e|]] eqn:Hl.
  { rewrite H. unfold final, outcome. simpl. split; [done|]. split; [|done].
    intros ? ? ? (? & ? & ? & ? & _). congruence. }
  destruct (nodes (m_nm s) !! cwd) as [dir|] eqn:Hcwd.
  2:{ rewrite H. unfold final, outcome. simpl. split; [done|]. split; [|done].
      intros ? ? ? (? & ? & ? & ? & ? & _). congruence. }
  destruct (last ps) as [name|] eqn:Hlast.
  2:{ rewrite H. unfold final, outcome. simpl. split; [done|]. split; [|done].
      intros ? ? ? (? & ? & ? & ? & ? & ? & _). congruence. }
  destruct (children dir !! name) as [f|] eqn:Hf.
  2:{ rewrite H. unfold final, outcome. simpl. split; [done|]. split; [|done].
      intros ? ? ? (? & ? & ? & ? & ? & ? & ? & _). congruence. }
  rewrite H, file_info_run.
  destruct (nodes (m_nm s) !! f) as [file|] eqn:Hfile.
  - unfold final, outcome. simpl. split; [done|]. split.
    + intros ? ? ? (? & ? & ? & ? & ? & ? & ? & ?). subst info. simpl. repeat f_equal; congruence.
    + exists ps, f, file. split; [|done]. by exists cwd, dir, name.
  - unfold final, outcome. simpl. split; [done|]. split; [|done].
    intros ? ? ? (? & ? & ? & ? & ? & ? & ? & ?). congruence.
Qed.

(** *** Locks *)

Lemma body_facts args reply f file (s : State) :
  outcome (RPCGetChunkHandle_body args reply f file s) ≠ Exit ∧
  ∀ held, locks_after held (trace (RPCGetChunkHandle_body args reply f file s)) = Some held.
Proof.
  unfold RPCGetChunkHandle_body. destruct (gch_Index args =? chunks file).
  - rewrite RPCGetChunkHandle_append_run.
    destruct (csm_ChooseServers DefaultNumReplicas (m_csm s) (world s)) as [[[addrs e1] c1] w1].
    destruct e1 as [e|]; [done|].
    destruct (cm_CreateChunk (gch_Path args) addrs (m_cm s) w1) as [[[[h addrs'] e2] c2] w2].
    destruct e2 as [e|]; [done|].
    by destruct (csm_AddChunk addrs' h c1 w2) as [[r3 c3] w3].
  - unfold bind. rewrite call_cm_run.
    by destruct (cm_GetChunk _ _ _ _) as [[[? ?] ?] ?].
Qed.

(** Closes a goal about the locks held after a trace that is known. *)
Ltac locks_done :=
  unfold trace; simpl; unfold release; rewrite ?decide_True by done; done.

(** Every lock the master takes it gives back, innermost first, on every
    path: [RPCGetChunkHandle] and [RPCGetFileInfo] release the node and the
    parents also when they return an error or panic, and a maintenance
    cycle releases each chunk it locked also when its repair failed or a
    later handle panics. *)
Theorem locks_released :
  (∀ args reply (s : State) held,
     locks_after held (trace (RPCGetChunkHandle args reply s)) = Some held) ∧
  (∀ args reply (s : State) held,
     locks_after held (trace (RPCGetFileInfo args reply s)) = Some held) ∧
  (∀ (s : State) held, locks_after held (trace (backgroundActivity s)) = Some held).
Proof.
  split; [|split].
  - intros args reply s held. rewrite RPCGetChunkHandle_locate.
    match goal with |- context [locate ?p ?fl ?k s] => pose proof (locate_run p fl k s) as H end.
    destruct (nm_lockParents (gch_Path args) (m_nm s)) as [[ps cwd] [e|]];
      [rewrite H; locks_done|].
    destruct (nodes (m_nm s) !! cwd) as [dir|];
      [|rewrite H; locks_done].
    destruct (last ps) as [name|];
      [|rewrite H; locks_done].
    destruct (children dir !! name) as [f|];
      [|rewrite H; locks_done].
    rewrite H, chunk_handle_run.
    destruct (nodes (m_nm s) !! f) as [file|];
      [|locks_done].
    destruct (body_facts args reply f file s) as [Hne Hl]. unfold outcome, trace in *.
    destruct (RPCGetChunkHandle_body args reply f file s) as [[[a| |] s1] t1];
      simpl in *; try done;
      rewrite !locks_after_app, Hl; locks_done.
  - intros args reply s held. rewrite RPCGetFileInfo_locate.
    match goal with |- context [locate ?p ?fl ?k s] => pose proof (locate_run p fl k s) as H end.
    destruct (nm_lockParents (gfi_Path args) (m_nm s)) as [[ps cwd] [e|]];
      [rewrite H; locks_done|].
    destruct (nodes (m_nm s) !! cwd) as [dir|];
      [|rewrite H; locks_done].
    destruct (last ps) as [name|];
      [|rewrite H; locks_done].
    destruct (children dir !! name) as [f|];
      [|rewrite H; locks_done].
    rewrite H, file_info_run.
    destruct (nodes (m_nm s) !! f) as [file|];
      locks_done.
  - intros s held. unfold backgroundActivity. unfold bind at 1. rewrite call_csm_run.
    set (dead := (csm_DetectDeadServers (m_csm s) (world s)).1.1).
    set (s1 := set_csm _ _ s).
    pose proof (sweep_facts dead s1) as (_ & _ & _ & S4 & S5).
    unfold bind at 1.
    destruct (backgroundActivity_sweep dead s1) as [[[[e|]| |] s2] t2];
      unfold outcome, trace in S4, S5; cbn [fst snd] in *; try done.
    + unfold ret, trace. simpl. rewrite app_nil_r. apply S4.
    + unfold bind at 1. rewrite call_cm_run.
      set (handles := (cm_GetNeedlist (m_cm s2) (world s2)).1.1).
      set (s3 := set_cm _ _ s2).
      unfold bind at 1, log, emit. unfold bind at 1.
      pose proof (repair_facts handles s3) as (_ & _ & R3 & _).
      destruct (backgroundActivity_repair handles s3) as [[[[]| |] s4] t4];
        unfold trace in *; cbn [fst snd] in *; simpl;
        rewrite ?app_nil_r, locks_after_app, S4; simpl; apply R3.
Qed.

(** *** One request after another *)

Lemma int64_incr_neq (x : Z) : int64_incr x ≠ x.
Proof. unfold int64_incr. Z.div_mod_to_equations. lia. Qed.

Lemma append_final_nm args reply (s : State) ps f file :
  resolves s (gch_Path args) ps f file →
  gch_Index args = chunks file →
  m_nm (final (RPCGetChunkHandle args reply s)) = m_nm (bump f file s).
Proof.
  intros Hres Hidx.
  rewrite (RPCGetChunkHandle_resolved _ reply _ _ _ _ Hres).
  unfold RPCGetChunkHandle_body. rewrite Hidx, Z.eqb_refl.
  rewrite RPCGetChunkHandle_append_run.
  destruct (csm_ChooseServers DefaultNumReplicas (m_csm s) (world s)) as [[[addrs e1] c1] w1].
  destruct e1 as [e|]; [done|].
  destruct (cm_CreateChunk (gch_Path args) addrs (m_cm s) w1) as [[[[h addrs'] e2] c2] w2].
  destruct e2 as [e|]; [done|].
  by destruct (csm_AddChunk addrs' h c1 w2) as [[r3 c3] w3].
Qed.

Lemma resolves_after_bump (s s' : State) p ps f file :
  resolves s p ps f file →
  m_nm s' = m_nm (bump f file s) →
  nm_lockParents p (m_nm s') = nm_lockParents p (m_nm s) →
  resolves s' p ps f (incr_chunks file).
Proof.
  intros (cwd & dir & name & Hl & Hcwd & Hlast & Hf & Hfile) Hnm Hsame.
  destruct (decide (cwd = f)) as [->|Hne].
  - exists f, (incr_chunks file), name. rewrite Hsame, Hnm. simpl.
    rewrite lookup_insert_eq. repeat split; try done. congruence.
  - exists cwd, dir, name. rewrite Hsame, Hnm. simpl.
    rewrite lookup_insert_eq, lookup_insert_ne by done. by repeat split.
Qed.

(** After a request for the next chunk of a file, [RPCGetFileInfo] on the
    same path reports one chunk more, whether or not the allocation
    succeeded; directory flag and length are as before.  (The parents of
    the path are taken to be found as before: the request changed a chunk
    count, not the tree.) *)
Theorem RPCGetFileInfo_after_append args reply freply (s : State) ps f file :
  resolves s (gch_Path args) ps f file →
  gch_Index args = chunks file →
  let s' := final (RPCGetChunkHandle args reply s) in
  nm_lockParents (gch_Path args) (m_nm s') = nm_lockParents (gch_Path args) (m_nm s) →
  outcome (RPCGetFileInfo {| gfi_Path := gch_Path args |} freply s') =
  Done ({| gfi_IsDir := isDir file; gfi_Length := file_length file;
           gfi_Chunks := int64_incr (chunks file) |}, None).
Proof.
  intros Hres Hidx s' Hsame.
  pose proof (resolves_after_bump s s' _ _ _ _ Hres
                (append_final_nm args reply s ps f file Hres Hidx) Hsame)
    as (cwd & dir & name & Hl & Hcwd & Hlast & Hf & Hfile).
  rewrite RPCGetFileInfo_locate. cbn [gfi_Path].
  match goal with |- context [locate ?p ?fl ?k s'] => pose proof (locate_run p fl k s') as H end.
  rewrite Hl, Hcwd, Hlast, Hf in H. rewrite H, file_info_run, Hfile. reflexivity.
Qed.

(** Once the next chunk of a file has been requested, a second request for
    the same index is a lookup: it allocates nothing, leaves the chunk
    count alone and returns what [GetChunk] returns.  So an allocation
    that failed is not tried again by asking again. *)
Theorem second_request_is_a_lookup args reply reply' (s : State) ps f file :
  resolves s (gch_Path args) ps f file →
  gch_Index args = chunks file →
  let s' := final (RPCGetChunkHandle args reply s) in
  nm_lockParents (gch_Path args) (m_nm s') = nm_lockParents (gch_Path args) (m_nm s) →
  let run := RPCGetChunkHandle args reply' s' in
  let '(h, err, c, w) := cm_GetChunk (gch_Path args) (gch_Index args) (m_cm s') (world s') in
  outcome run = Done ({| gch_Handle := h |}, err) ∧
  List.filter is_allocation (trace run) = [] ∧
  m_nm (final run) = m_nm s'.
Proof.
  intros Hres Hidx s' Hsame run. subst run.
  pose proof (resolves_after_bump s s' _ _ _ _ Hres
                (append_final_nm args reply s ps f file Hres Hidx) Hsame) as Hres'.
  rewrite (RPCGetChunkHandle_resolved _ reply' _ _ _ _ Hres').
  unfold RPCGetChunkHandle_body.
  assert (Hne : (gch_Index args =? chunks (incr_chunks file)) = false).
  { apply Z.eqb_neq. simpl. rewrite Hidx. intros Heq. by apply (int64_incr_neq (chunks file)). }
  rewrite Hne. unfold bind. rewrite call_cm_run.
  by destruct (cm_GetChunk (gch_Path args) (gch_Index args) (m_cm s') (world s'))
    as [[[h err] c] w].
Qed.

(** *** Shutdown *)

Lemma blind_ret {A} (a : A) : shutdown_blind (ret a : M A).
Proof. by intros b s. Qed.

Lemma blind_panic {A} : shutdown_blind (panic : M A).
Proof. by intros b s. Qed.

Lemma blind_emit e : shutdown_blind (emit e : M unit).
Proof. by intros b s. Qed.

Lemma blind_log l m : shutdown_blind (log l m : M unit).
Proof. by intros b s. Qed.

Lemma blind_log_Fatal {A} m : shutdown_blind (log_Fatal m : M A).
Proof. by intros b s. Qed.

Lemma blind_bind {A B} (c : M A) (k : A → M B) :
  shutdown_blind c → (∀ a, shutdown_blind (k a)) → shutdown_blind (bind c k).
Proof.
  intros Hc Hk b s. unfold bind. rewrite (Hc b s).
  destruct (c s) as [[[a| |] s1] t1]; try done.
  rewrite (Hk a b s1). by destruct (k a s1) as [[r s2] t2].
Qed.

Lemma blind_defer {A} (d : M unit) (body : M A) :
  shutdown_blind d → shutdown_blind body → shutdown_blind (defer d body).
Proof.
  intros Hd Hb b s. unfold defer. rewrite (Hb b s).
  destruct (body s) as [[[a| |] s1] t1]; try done;
    rewrite (Hd b s1); by destruct (d s1) as [[[[]| |] s2] t2].
Qed.

Lemma blind_forEach {A} (l : list A) (body : A → M unit) :
  (∀ x, shutdown_blind (body x)) → shutdown_blind (forEach l body).
Proof.
  intros Hb. induction l; simpl; [apply blind_ret|]. apply blind_bind; auto.
Qed.

Lemma blind_call_cm {R} ev (op : Op CM World R) : shutdown_blind (call_cm ev op).
Proof. intros b s. unfold call_cm. simpl. by destruct (op _ _) as [[? ?] ?]. Qed.

Lemma blind_call_csm {R} ev (op : Op CSM World R) : shutdown_blind (call_csm ev op).
Proof. intros b s. unfold call_csm. simpl. by destruct (op _ _) as [[? ?] ?]. Qed.

Lemma blind_call_world {R} evs (op : World → R * World) : shutdown_blind (call_world evs op).
Proof. intros b s. unfold call_world. simpl. by destruct (op _) as [? ?]. Qed.

Lemma blind_call_nm {R} ev (op : namespaceManager → R * namespaceManager) :
  shutdown_blind (call_nm ev op).
Proof. intros b s. unfold call_nm. simpl. by destruct (op _) as [? ?]. Qed.

Lemma blind_expired h : shutdown_blind (expired h).
Proof.
  intros b s. unfold expired. simpl. destruct (cm_chunk_expire _ _); [|done].
  by destruct (time_Now _).
Qed.

Lemma blind_deref r : shutdown_blind (deref r).
Proof. intros b s. unfold deref. simpl. by destruct (_ !! _). Qed.

Lemma blind_store r t : shutdown_blind (store r t).
Proof. by intros b s. Qed.

Lemma blind_last_elem ps : shutdown_blind (last_elem ps).
Proof. unfold last_elem. destruct (last ps); [apply blind_ret|apply blind_panic]. Qed.

Lemma blind_lockParents p : shutdown_blind (lockParents p).
Proof. by intros b s. Qed.

Create HintDb blind.
#[local] Hint Resolve blind_ret blind_panic blind_emit blind_log blind_log_Fatal blind_call_cm
  blind_call_csm blind_call_world blind_call_nm blind_expired blind_deref blind_store
  blind_last_elem blind_lockParents : blind.

Ltac blind_step :=
  match goal with
  | |- shutdown_blind (bind _ _) => apply blind_bind; [|intros ?]
  | |- shutdown_blind (defer _ _) => apply blind_defer
  | |- shutdown_blind (forEach _ _) => apply blind_forEach; intros ?
  | |- shutdown_blind (match ?x with _ => _ end) => destruct x
  | |- shutdown_blind (if ?b then _ else _) => destruct b
  | |- shutdown_blind _ => solve [auto with blind]
  end.

Lemma blind_reReplication h : shutdown_blind (reReplication h).
Proof. unfold reReplication. repeat blind_step. Qed.

Lemma blind_sweep addrs : shutdown_blind (backgroundActivity_sweep addrs).
Proof. induction addrs; simpl; repeat blind_step. Qed.

Lemma blind_repair handles : shutdown_blind (backgroundActivity_repair handles).
Proof. induction handles; simpl; repeat blind_step; auto using blind_reReplication. Qed.

Lemma blind_backgroundActivity : shutdown_blind backgroundActivity.
Proof. unfold backgroundActivity. repeat blind_step; auto using blind_sweep, blind_repair. Qed.

(** [Shutdown] closes the [shutdown] channel, once: called on a master that
    is already shut down it panics and changes nothing.  After it the
    accept loop leaves at its next turn without calling [Accept]. *)
Theorem Shutdown_once (s : State) :
  let run := Shutdown s in
  trace run = [] ∧
  (m_shutdown s = false →
   outcome run = Done tt ∧ final run = set_shutdown true s ∧
   acceptLoop_iter (final run) = (Done false, final run, [])) ∧
  (m_shutdown s = true → run = (Panic, s, [])) ∧
  outcome (Shutdown (final run)) = Panic.
Proof.
  intros run. subst run. unfold Shutdown, acceptLoop_iter, outcome, final, trace.
  destruct (m_shutdown s) eqn:Hs; simpl; rewrite ?Hs; repeat split; try done.
Qed.

(** Only the accept loop looks at the [shutdown] channel.  The background
    task and the RPC handlers run on a master that is shut down exactly as
    on one that is not, same result, same calls, same effect on the
    managers, and they leave the channel as it is: [Shutdown] stops neither
    the maintenance cycles nor the serving of requests. *)
Theorem shutdown_is_not_looked_at :
  shutdown_blind backgroundTask_iter ∧
  (∀ args reply, shutdown_blind (RPCHeartbeat args reply)) ∧
  (∀ h reply, shutdown_blind (RPCGetPrimaryAndSecondaries h reply)) ∧
  (∀ h reply, shutdown_blind (RPCGetReplicas h reply)) ∧
  (∀ p, shutdown_blind (RPCCreateFile p)) ∧
  (∀ p, shutdown_blind (RPCMkdir p)) ∧
  (∀ args reply, shutdown_blind (RPCGetFileInfo args reply)) ∧
  (∀ args reply, shutdown_blind (RPCGetChunkHandle args reply)).
Proof.
  split; [|split; [|split; [|split; [|split; [|split; [|split]]]]]]; intros.
  - unfold backgroundTask_iter. repeat blind_step; auto using blind_backgroundActivity.
  - unfold RPCHeartbeat. repeat blind_step.
  - unfold RPCGetPrimaryAndSecondaries. repeat blind_step.
  - unfold RPCGetReplicas. repeat blind_step.
  - unfold RPCCreateFile. repeat blind_step.
  - unfold RPCMkdir. repeat blind_step.
  - unfold RPCGetFileInfo. repeat blind_step.
  - unfold RPCGetChunkHandle, RPCGetChunkHandle_append. repeat blind_step.
Qed.

(** *** What ends the process, and what does not *)








End Properties.

(** ** Concrete runs in the replayed environment *)

Import Replay.
Local Open Scope string_scope.

(** The sweep of [sweep_fails] never reaches the second dead server. *)
Lemma sweep_fails_run :
  csm_DetectDeadServers (m_csm sweep_fails) (world sweep_fails)
    = (["cs1"; "cs2"], three_servers, [AHandles [] (Some NotFound)]) ∧
  csm_RemoveServer "cs1" three_servers [AHandles [] (Some NotFound)]
    = ([], Some NotFound, three_servers, []) ∧
  backgroundActivity sweep_fails =
    (Done (Some NotFound), set_csm three_servers [] sweep_fails,
     [EvDetectDeadServers; EvLog Warning (LogRemoveServer "cs1"); EvRemoveServer "cs1"]).
Proof.
  split; [reflexivity|]. split; [reflexivity|].
  apply (backgroundActivity_stops_at_first_error sweep_fails "cs1" ["cs2"]
           three_servers [AHandles [] (Some NotFound)] [] NotFound three_servers []);
    reflexivity.
Defined.

(** In these namespaces ["a.txt"] names node 2. *)
Lemma a_txt_resolves (w : World) (n : Z) :
  resolves (scenario (one_file n) one_chunk three_servers w) "a.txt" ["a.txt"] 2%positive (file_of n).
Proof. exists 1%positive. eexists. exists "a.txt". repeat split; reflexivity. Defined.

(** [CreateChunk] returns an error and the caller is told the call succeeded. *)
Lemma CreateChunk_error_reported_as_success :
  (cm_CreateChunk "a.txt" ["cs1"; "cs2"; "cs3"] one_chunk
     [ACreated 11 ["cs1"; "cs2"] (Some DownstreamFailure)]).1.1.2 = Some DownstreamFailure ∧
  outcome (RPCGetChunkHandle {| gch_Path := "a.txt"; gch_Index := 1 |} {| gch_Handle := 0 |}
             create_fails) = Done ({| gch_Handle := 11 |}, None).
Proof. split; reflexivity. Qed.

(** The run of [create_fails]: the error is logged as ignored and nil returned. *)
Lemma ignores_CreateChunk_error_run :
  let args := {| gch_Path := "a.txt"; gch_Index := 1 |} in
  let run := RPCGetChunkHandle args {| gch_Handle := 0 |} create_fails in
  resolves create_fails (gch_Path args) ["a.txt"] 2%positive (file_of 1) ∧
  gch_Index args = chunks (file_of 1) ∧
  outcome run = Done ({| gch_Handle := 11 |}, None) ∧
  EvLog Warning (LogIgnored DownstreamFailure) ∈ trace run ∧
  List.filter is_registration (trace run) = [] ∧
  m_csm (final run) = three_servers.
Proof.
  split; [apply a_txt_resolves|]. split; [reflexivity|].
  exact (RPCGetChunkHandle_ignores_CreateChunk_error
           {| gch_Path := "a.txt"; gch_Index := 1 |} {| gch_Handle := 0 |} create_fails
           ["a.txt"] 2%positive (file_of 1) (a_txt_resolves _ 1) eq_refl).
Defined.

(** ["a.txt"] has one chunk; asked for index 5, the master answers with the
    NotFound of [GetChunk], not with InvalidRequest. *)
Lemma index_beyond_count_is_NotFound :
  let args := {| gch_Path := "a.txt"; gch_Index := 5 |} in
  let run := RPCGetChunkHandle args {| gch_Handle := 0 |} lookup_only in
  resolves lookup_only (gch_Path args) ["a.txt"] 2%positive (file_of 1) ∧
  chunks (file_of 1) < gch_Index args ∧
  outcome run = Done ({| gch_Handle := 0 |}, Some NotFound) ∧
  NotFound ≠ InvalidRequest.
Proof. split; [apply a_txt_resolves|]. split; [reflexivity|]. split; [reflexivity|done]. Qed.

(** The run of [lookup_only] at index 5: nothing is allocated. *)
Lemma allocates_iff_next_index_run :
  let args := {| gch_Path := "a.txt"; gch_Index := 5 |} in
  let run := RPCGetChunkHandle args {| gch_Handle := 0 |} lookup_only in
  resolves lookup_only (gch_Path args) ["a.txt"] 2%positive (file_of 1) ∧
  (gch_Index args = chunks (file_of 1) ↔ EvChooseServers DefaultNumReplicas ∈ trace run) ∧
  (gch_Index args ≠ chunks (file_of 1) →
   outcome run = Done ({| gch_Handle := 0 |}, Some NotFound) ∧
   List.filter is_allocation (trace run) = [] ∧
   m_nm (final run) = m_nm lookup_only ∧ m_csm (final run) = m_csm lookup_only ∧
   m_cm (final run) = one_chunk).
Proof.
  split; [apply a_txt_resolves|].
  exact (RPCGetChunkHandle_allocates_iff_next_index
           {| gch_Path := "a.txt"; gch_Index := 5 |} {| gch_Handle := 0 |} lookup_only
           ["a.txt"] 2%positive (file_of 1) (a_txt_resolves _ 1)).
Defined.

(** In the replayed environment the choice of source and destination only asks. *)
Lemma ChooseReReplication_asks (h : ChunkHandle) (c : CSM) (w : World) :
  (csm_ChooseReReplication h c w).1.2 = c.
Proof. destruct w as [|a w]; reflexivity. Defined.

(** The run of [copy_fails]: the destination cannot be reached, nothing is registered. *)
Lemma reReplication_protocol_run :
  let run := reReplication 10 copy_fails in
  (∀ h (c : CSM) (w : World), (csm_ChooseReReplication h c w).1.2 = c) ∧
  ((None = Some DownstreamFailure
    ∨ (None (A := Err) = None ∧ Some DownstreamFailure = Some DownstreamFailure)
    ∨ (None (A := Err) = None ∧ Some DownstreamFailure = None ∧ None = Some DownstreamFailure)) ∧
   trace run `prefix_of` reReplication_steps 10 "cs1" "cs3" ∧
   List.filter is_registration (trace run) = [] ∧
   m_cm (final run) = one_chunk ∧ m_csm (final run) = three_servers).
Proof.
  split; [exact ChooseReReplication_asks|].
  exact (reReplication_protocol 10 copy_fails ChooseReReplication_asks).
Defined.




(** A heartbeat of a server not seen before, which reports chunk 10 and
    asks for the lease of chunk 10 to be extended. *)
Example heartbeat_of_a_new_server :
  let args := {| hb_Address := "cs4"; hb_LeaseExtensions := [10] |} in
  let run := RPCHeartbeat args Build_HeartbeatReply
               (scenario (one_file 1) one_chunk three_servers [AReports [{| Handle := 10 |}]]) in
  outcome run = Done (Build_HeartbeatReply, None) ∧
  trace run = [EvHeartbeat "cs4"; EvRegisterReplica 10 "cs4"; EvAddChunk ["cs4"] 10;
               EvExtendLease 10 "cs4"] ∧
  m_csm (final run) = {| servers := ["cs1"; "cs2"; "cs3"; "cs4"]; held := [("cs4", 10)] |} ∧
  location (m_cm (final run)) = [(10, "cs1"); (10, "cs2"); (10, "cs4")] ∧
  extensions (m_cm (final run)) = [(10, "cs4")].
Proof. repeat split; reflexivity. Qed.

Example second_repair_runs_after_first_fails :
  let run := backgroundActivity_repair [10; 11] two_repairs in
  outcome run = Done tt ∧
  attempts (trace run) = [10; 11] ∧
  repair_results (trace run) = [Some NoAvailableServers; None] ∧
  location (m_cm (final run)) = [(11, "cs3")].
Proof. repeat split; reflexivity. Qed.

(** The run of [choose_fails], then a look at the file: the allocation
    failed and ["a.txt"] is reported with two chunks. *)
Lemma file_info_after_failed_append_run :
  let args := {| gch_Path := "a.txt"; gch_Index := 1 |} in
  let run := RPCGetChunkHandle args {| gch_Handle := 0 |} choose_fails in
  resolves choose_fails (gch_Path args) ["a.txt"] 2%positive (file_of 1) ∧
  gch_Index args = chunks (file_of 1) ∧
  nm_lockParents (gch_Path args) (m_nm (final run))
    = nm_lockParents (gch_Path args) (m_nm choose_fails) ∧
  outcome (RPCGetFileInfo {| gfi_Path := "a.txt" |}
             {| gfi_IsDir := false; gfi_Length := 0; gfi_Chunks := 0 |} (final run)) =
  Done ({| gfi_IsDir := false; gfi_Length := 0; gfi_Chunks := 2 |}, None).
Proof.
  split; [apply a_txt_resolves|]. split; [reflexivity|]. split; [reflexivity|].
  exact (RPCGetFileInfo_after_append
           {| gch_Path := "a.txt"; gch_Index := 1 |} {| gch_Handle := 0 |}
           {| gfi_IsDir := false; gfi_Length := 0; gfi_Chunks := 0 |} choose_fails
           ["a.txt"] 2%positive (file_of 1) (a_txt_resolves _ 1) eq_refl eq_refl).
Defined.

(** The run of [choose_fails], then the same request again: it is answered
    by [GetChunk], which has no chunk at index 1. *)
Lemma second_request_after_failed_append_run :
  let args := {| gch_Path := "a.txt"; gch_Index := 1 |} in
  let run := RPCGetChunkHandle args {| gch_Handle := 0 |} choose_fails in
  let again := RPCGetChunkHandle args {| gch_Handle := 0 |} (final run) in
  resolves choose_fails (gch_Path args) ["a.txt"] 2%positive (file_of 1) ∧
  gch_Index args = chunks (file_of 1) ∧
  nm_lockParents (gch_Path args) (m_nm (final run))
    = nm_lockParents (gch_Path args) (m_nm choose_fails) ∧
  outcome again = Done ({| gch_Handle := 0 |}, Some NotFound) ∧
  List.filter is_allocation (trace again) = [] ∧
  m_nm (final again) = m_nm (final run).
Proof.
  split; [apply a_txt_resolves|]. split; [reflexivity|]. split; [reflexivity|].
  exact (second_request_is_a_lookup
           {| gch_Path := "a.txt"; gch_Index := 1 |} {| gch_Handle := 0 |} {| gch_Handle := 0 |}
           choose_fails ["a.txt"] 2%positive (file_of 1) (a_txt_resolves _ 1) eq_refl eq_refl).
Defined.
